(** * tf-keras-vis: score functions and the Score-CAM engine

    A shallow embedding of [tf_keras_vis/utils/scores.py] and of
    [tf_keras_vis/scorecam.py].

    Tensors are a shape together with the row-major buffer of their values.
    Floating-point values are idealised as rationals: every statement below
    is about exact arithmetic, not about rounding, NaN or infinities. *)

From Stdlib Require Import List Bool Arith ZArith QArith Qround Qabs Qminmax.
From Stdlib Require Import Lia Lqa Permutation Sorted.
Import ListNotations.

Close Scope Q_scope.
Open Scope nat_scope.

(* ================================================================== *)
(** * Exceptions and results *)

(** The [ValueError]s of the two files, one constructor per [raise] site
    (the message texts differ only in the value they print), and the
    interpreter's own errors that the modelled code can run into. *)
Inductive message : Type :=
| NoneNotAccepted      (* "Can't accept None value. ..." *)
| ValuesRequired       (* "target_values is required. ..." / "`indices` is required. ..." *)
| OutputShape          (* "`output` shape must be (batch_size, 1), ..." / "`output` ndim must be 2 or more ..." *)
| InvalidIndexValue    (* "Invalid index value. ..." *)
| MaxNZero             (* "max_N can't be set 0, ..." *)
| EmptySequence.       (* Python's max() of an empty sequence, tf.stack of nothing *)

Inductive exn : Type :=
| ValueError (m : message)
| IndexError            (* a subscript outside the axis it indexes *)
| ZeroDivisionError
| InvalidArgumentError  (* raised by a TensorFlow / NumPy primitive *)
| CollaboratorError (code : nat).   (* raised by the host model or a helper *)

Inductive result (A : Type) : Type :=
| Ok (a : A)
| Raise (e : exn).
Arguments Ok {A} a.
Arguments Raise {A} e.

Definition bind {A B} (r : result A) (k : A -> result B) : result B :=
  match r with
  | Ok a => k a
  | Raise e => Raise e
  end.

Declare Scope result_scope.
Delimit Scope result_scope with result.
Notation "x <- r ;; k" := (bind r (fun x => k))
  (at level 100, r at next level, right associativity) : result_scope.
Open Scope result_scope.

Fixpoint mapM {A B} (f : A -> result B) (l : list A) : result (list B) :=
  match l with
  | [] => Ok []
  | a :: l' => b <- f a ;; bs <- mapM f l' ;; Ok (b :: bs)
  end.

(** The error classes of the specification. *)
Definition invalid_argument (e : exn) : bool :=
  match e with
  | ValueError NoneNotAccepted | ValueError ValuesRequired | ValueError MaxNZero => true
  | _ => false
  end.

Definition invalid_shape (e : exn) : bool :=
  match e with ValueError OutputShape => true | _ => false end.

Definition invalid_index (e : exn) : bool :=
  match e with ValueError InvalidIndexValue => true | _ => false end.

(* ================================================================== *)
(** * Tensors *)

Record tensor : Type := mkTensor { shape : list nat; data : list Q }.

Definition ndim (t : tensor) : nat := length (shape t).

Definition numel (sh : list nat) : nat := fold_right Nat.mul 1 sh.

(** A tensor is well formed when its buffer has one value per position. *)
Definition wf (t : tensor) : Prop := length (data t) = numel (shape t).

(** [shape[0]], [shape[-1]] and [shape[1:-1]]. *)
Definition batch_dim (t : tensor) : nat := hd 0 (shape t).
Definition last_dim (t : tensor) : nat := last (shape t) 0.
Definition inner_dims (t : tensor) : list nat := removelast (tl (shape t)).

(** The value at batch element [i], flattened inner position [p] and
    channel [c] of a tensor of shape [(B, ..., K)] with [P] inner positions. *)
Definition at3 (t : tensor) (P K i p c : nat) : Q :=
  nth ((i * P + p) * K + c) (data t) 0%Q.

(** The values of batch element [b] at channel [c], over all inner
    positions: the entries a reduction over [range(ndim)[1:-1]] combines. *)
Definition channel_values (t : tensor) (b c : nat) : list Q :=
  let P := numel (inner_dims t) in
  map (fun p => at3 t P (last_dim t) b p c) (seq 0 P).

Definition Qsum (l : list Q) : Q := fold_right Qplus 0%Q l.

Definition mean (l : list Q) : Q := (Qsum l / inject_Z (Z.of_nat (length l)))%Q.

(* ================================================================== *)
(** * Arguments as the caller passes them *)

(** A constructor argument: [None], one value, or a list whose entries may
    be [None]. *)
Inductive pyarg (A : Type) : Type :=
| PyNone
| PyValue (a : A)
| PyList (l : list (option A)).
Arguments PyNone {A}.
Arguments PyValue {A} a.
Arguments PyList {A} l.

(** Values a caller may pass as targets; [bool(v)] is [truth v]. *)
Inductive pyval : Type :=
| PyBool (b : bool)
| PyInt (z : Z).

Definition truth (v : option pyval) : bool :=
  match v with
  | None => false
  | Some (PyBool b) => b
  | Some (PyInt z) => negb (z =? 0)%Z
  end.

(** Modelled from the spec: [listify] of [tf_keras_vis/utils/__init__.py]
    is not among the sources.  The constructors' docstrings ("bool, list[bool]",
    "An integer or a list of them", "ValueError: When indices is None or an
    empty list") fix what it does: a list is returned as it is, a single
    value is wrapped in a one-element list, and [None] becomes the empty
    list only when [return_empty_list_if_none] is set. *)
Definition listify {A} (value : pyarg A) (return_empty_list_if_none : bool)
  : list (option A) :=
  match value with
  | PyNone => if return_empty_list_if_none then [] else [None]
  | PyValue a => [Some a]
  | PyList l => l
  end.

Definition is_None {A} (o : option A) : bool :=
  match o with None => true | Some _ => false end.

(** [None in l]. *)
Definition None_in {A} (l : list (option A)) : bool := existsb is_None l.

(* ================================================================== *)
(** * scores.py *)

Module Scores.

(** ** InactiveScore *)

(** [return output * 0.0] *)
Definition InactiveScore_call (output : tensor) : tensor :=
  mkTensor (shape output) (map (fun v => (v * 0)%Q) (data output)).

(** ** BinaryScore *)

Record BinaryScore : Type := mkBinaryScore { target_values : list bool }.

Definition BinaryScore_init (target_values : pyarg pyval) : result BinaryScore :=
  let tv := listify target_values false in
  if None_in tv then Raise (ValueError NoneNotAccepted)
  else
    let tv := map truth tv in
    if length tv =? 0 then Raise (ValueError ValuesRequired)
    else Ok (mkBinaryScore tv).

(** [tf.reshape(output, (-1, ))] *)
Definition reshape_flat (t : tensor) : tensor :=
  mkTensor [numel (shape t)] (data t).

(** [l * n] on a Python list. *)
Definition py_list_mul {A} (l : list A) (n : nat) : list A :=
  concat (repeat l n).

Definition binary_shape_ok (output : tensor) : bool :=
  (ndim output =? 1) || ((ndim output =? 2) && (nth 1 (shape output) 0 =? 1)).

Definition binary_value (val : Q) (positive : bool) : Q :=
  if positive then val else (1 - val)%Q.

Definition BinaryScore_call (self : BinaryScore) (output : tensor) : result (list Q) :=
  if negb (ndim output =? 1) && negb ((ndim output =? 2) && (nth 1 (shape output) 0 =? 1))
  then Raise (ValueError OutputShape)
  else
    let output := reshape_flat output in
    let target_values := target_values self in
    let target_values :=
      if (length target_values =? 1) && (length target_values <? batch_dim output)
      then py_list_mul target_values (batch_dim output)
      else target_values in
    Ok (map (fun vp => binary_value (fst vp) (snd vp))
            (combine (data output) target_values)).

(** The targets [zip] pairs with the output values in [BinaryScore_call]. *)
Definition paired_targets (self : BinaryScore) (output : tensor) : list bool :=
  if (length (target_values self) =? 1) &&
     (length (target_values self) <? batch_dim (reshape_flat output))
  then py_list_mul (target_values self) (batch_dim (reshape_flat output))
  else target_values self.

(** ** CategoricalScore *)

Record CategoricalScore : Type := mkCategoricalScore { indices : list Z }.

Fixpoint all_Some {A} (l : list (option A)) : list A :=
  match l with
  | [] => []
  | Some a :: l' => a :: all_Some l'
  | None :: l' => all_Some l'
  end.

Definition CategoricalScore_init (indices : pyarg Z) : result CategoricalScore :=
  let ind := listify indices false in
  if None_in ind then Raise (ValueError NoneNotAccepted)
  else if length ind =? 0 then Raise (ValueError ValuesRequired)
  else Ok (mkCategoricalScore (all_Some ind)).

(** Python's [max] of a list of integers. *)
Definition py_max (l : list Z) : result Z :=
  match l with
  | [] => Raise (ValueError EmptySequence)
  | z :: l' => Ok (fold_left Z.max l' z)
  end.

(** A subscript on an axis of [n] entries: negative subscripts count from
    the end, anything else outside the axis raises. *)
Definition axis_index (n : nat) (index : Z) : result nat :=
  if (0 <=? index)%Z && (index <? Z.of_nat n)%Z then Ok (Z.to_nat index)
  else if (- Z.of_nat n <=? index)%Z && (index <? 0)%Z then Ok (Z.to_nat (Z.of_nat n + index))
  else Raise IndexError.

(** [output[i, ..., index]]: the inner positions of batch element [i] at
    channel [index]. *)
Definition subscript (output : tensor) (i : nat) (index : Z) : result tensor :=
  let P := numel (inner_dims output) in
  let K := last_dim output in
  if batch_dim output <=? i then Raise IndexError
  else
    c <- axis_index K index ;;
    Ok (mkTensor (inner_dims output)
                 (map (fun p => at3 output P K i p c) (seq 0 P))).

(** [enumerate(l)] *)
Definition enumerate {A} (l : list A) : list (nat * A) :=
  combine (seq 0 (length l)) l.

(** [tf.stack(l, axis=0)] of tensors of one shape. *)
Definition tf_stack (l : list tensor) : result tensor :=
  match l with
  | [] => Raise (ValueError EmptySequence)
  | t :: _ => Ok (mkTensor (length l :: shape t) (concat (map data l)))
  end.

(** [tf.math.reduce_mean(score, axis=tuple(range(score.ndim))[1:])]: with
    no axis left to reduce the tensor is returned as it is. *)
Definition reduce_mean_tail (score : tensor) : tensor :=
  match tl (seq 0 (ndim score)) with
  | [] => score
  | _ :: _ =>
      let n := batch_dim score in
      let P := numel (tl (shape score)) in
      mkTensor [n]
        (map (fun i => mean (map (fun p => nth (i * P + p) (data score) 0%Q) (seq 0 P)))
             (seq 0 n))
  end.

Definition CategoricalScore_call (self : CategoricalScore) (output : tensor)
  : result tensor :=
  if ndim output <? 2 then Raise (ValueError OutputShape)
  else
    m <- py_max (indices self) ;;
    if (Z.of_nat (last_dim output) <=? m)%Z then Raise (ValueError InvalidIndexValue)
    else
      let indices := indices self in
      let indices :=
        if (length indices =? 1) && (length indices <? batch_dim output)
        then py_list_mul indices (batch_dim output)
        else indices in
      score <- mapM (fun ii => subscript output (fst ii) (snd ii)) (enumerate indices) ;;
      score <- tf_stack score ;;
      Ok (reduce_mean_tail score).

(** The indices [enumerate] runs over in [CategoricalScore_call]. *)
Definition paired_indices (self : CategoricalScore) (output : tensor) : list Z :=
  if (length (indices self) =? 1) && (length (indices self) <? batch_dim output)
  then py_list_mul (indices self) (batch_dim output)
  else indices self.

End Scores.

(** The score objects a caller can hand to the engine: the three classes of
    [scores.py], or any callable. *)
Inductive Score : Type :=
| Inactive
| Binary (s : Scores.BinaryScore)
| Categorical (s : Scores.CategoricalScore)
| Callable (f : tensor -> result tensor).

(** [score(output)]; the list a [BinaryScore] returns is read as a
    one-axis array, which is what [np.array] makes of it. *)
Definition Score_call (score : Score) (output : tensor) : result tensor :=
  match score with
  | Inactive => Ok (Scores.InactiveScore_call output)
  | Binary s => l <- Scores.BinaryScore_call s output ;; Ok (mkTensor [length l] l)
  | Categorical s => Scores.CategoricalScore_call s output
  | Callable f => f output
  end.

(* ================================================================== *)
(** * scorecam.py *)

Module Scorecam.

(** ** Primitives of TensorFlow and NumPy with a fixed meaning *)

(** Insertion into a list sorted by decreasing value; an entry goes in
    front of the entries it equals. *)
Fixpoint insert_desc (x : Q * nat) (l : list (Q * nat)) : list (Q * nat) :=
  match l with
  | [] => [x]
  | y :: l' => if Qle_bool (fst y) (fst x) then x :: y :: l' else y :: insert_desc x l'
  end.

Definition sort_desc (l : list (Q * nat)) : list (Q * nat) :=
  fold_right insert_desc [] l.

(** The index half of [tf.math.top_k(values, k)] on one row: the positions
    of the [k] largest entries, largest first, the lower position first
    among equal entries. *)
Definition top_k (values : list Q) (k : Z) : result (list nat) :=
  if (k <? 0)%Z || (Z.of_nat (length values) <? k)%Z then Raise InvalidArgumentError
  else Ok (firstn (Z.to_nat k)
                  (map snd (sort_desc (combine values (seq 0 (length values)))))).

(** The value half of [tf.unique]: each entry once, in the order of the
    first occurrences. *)
Fixpoint unique (l : list nat) : list nat :=
  match l with
  | [] => []
  | x :: l' => x :: filter (fun y => negb (y =? x)) (unique l')
  end.

(** [tf.gather(t, indices, axis=-1)] *)
Definition gather_last (t : tensor) (indices : list nat) : tensor :=
  let K := last_dim t in
  let rows := numel (removelast (shape t)) in
  mkTensor (removelast (shape t) ++ [length indices])
           (flat_map (fun r => map (fun c => nth (r * K + c) (data t) 0%Q) indices)
                     (seq 0 rows)).

Definition list_min (l : list Q) : Q :=
  match l with
  | [] => 0%Q
  | x :: l' => fold_left Qmin l' x
  end.

Definition list_max (l : list Q) : Q :=
  match l with
  | [] => 0%Q
  | x :: l' => fold_left Qmax l' x
  end.

(** [shape[-1]] *)
Definition shape_last (t : tensor) : result nat :=
  match shape t with
  | [] => Raise IndexError
  | _ :: _ => Ok (last_dim t)
  end.

(** Python's [round]: to the nearest integer, a tie to the even one. *)
Definition py_round (q : Q) : Z :=
  let f := Qfloor q in
  match ((q - inject_Z f) ?= (1 # 2))%Q with
  | Lt => f
  | Gt => (f + 1)%Z
  | Eq => if Z.even f then f else (f + 1)%Z
  end.

(** Modelled from the spec: [zoom_factor] of [tf_keras_vis/utils] is not
    among the sources; "factors computed as target_shape / source_shape per
    axis", over the axes the two shapes have in common. *)
Definition zoom_factor (from_shape to_shape : list nat) : result (list Q) :=
  mapM (fun ft : nat * nat =>
          if fst ft =? 0 then Raise ZeroDivisionError
          else Ok (inject_Z (Z.of_nat (snd ft)) / inject_Z (Z.of_nat (fst ft)))%Q)
       (combine from_shape to_shape).

(** ** The collaborators *)

(** What the engine is given from outside the two files: the base class
    [ModelVisualization] and the helpers of [tf_keras_vis.utils], the host
    model, and the primitives of TensorFlow, NumPy and SciPy whose values
    the engine only passes on. *)
Record host : Type := mkHost {
  (* len(self.model.inputs) *)
  num_inputs : nat;
  (* self._get_scores_for_multiple_outputs *)
  get_scores_for_multiple_outputs : pyarg Score -> result (list Score);
  (* self._get_seed_inputs_for_multiple_inputs *)
  get_seed_inputs_for_multiple_inputs : pyarg tensor -> result (list tensor);
  (* ModelModifier(penultimate_layer, seek_penultimate_conv_layer, False)(self.model)
     applied to the seed inputs *)
  penultimate_model : list tensor -> result tensor;
  (* is_mixed_precision(self.model) and the cast to self.model.variable_dtype *)
  is_mixed_precision : bool;
  tf_cast : tensor -> tensor;
  get_num_of_steps_allowed : Z -> Z;
  (* tf.math.reduce_std of the values one reduction combines *)
  reduce_std : list Q -> Q;
  (* K.epsilon() *)
  epsilon : Q;
  (* scipy.ndimage.zoom *)
  zoom : tensor -> list Q -> result tensor;
  np_tile : tensor -> list nat -> result tensor;
  np_transpose : tensor -> list nat -> result tensor;
  (* np.expand_dims(t, axis=-1) *)
  np_expand_dims : tensor -> tensor;
  np_multiply : tensor -> tensor -> result tensor;
  (* np.reshape; None stands for -1 *)
  np_reshape : tensor -> list (option nat) -> result tensor;
  (* iteration over the first axis *)
  np_iter : tensor -> list tensor;
  (* np.array(list, dtype=np.float32) *)
  np_array : list tensor -> result tensor;
  np_mean : tensor -> nat -> result tensor;
  np_sum : tensor -> nat -> result tensor;
  (* self.model.predict followed by listify *)
  predict : list tensor -> nat -> result (list tensor);
  batch_dot : tensor -> tensor -> result tensor;
  standardize : tensor -> result tensor
}.

(** ** Calls to the collaborators are recorded *)

Inductive event : Type :=
| PrepareScores
| PrepareSeedInputs
| PenultimateForward
| StepsAllowed
| Zoom
| Predict
| ScoreCall
| ActivationModifier
| Standardize.

(** A computation of the engine: the collaborator calls made so far are
    threaded through, and the computation ends in a value or an exception. *)
Definition M (A : Type) : Type := list event -> list event * result A.

Definition ret {A} (a : A) : M A := fun tr => (tr, Ok a).
Definition raise {A} (e : exn) : M A := fun tr => (tr, Raise e).
Definition lift {A} (r : result A) : M A := fun tr => (tr, r).
Definition call {A} (ev : event) (r : result A) : M A := fun tr => (tr ++ [ev], r).

Definition mbind {A B} (m : M A) (k : A -> M B) : M B :=
  fun tr =>
    match m tr with
    | (tr', Ok a) => k a tr'
    | (tr', Raise e) => (tr', Raise e)
    end.

Notation "x <~ m ;; k" := (mbind m (fun x => k))
  (at level 100, m at next level, right associativity).

Fixpoint mmapM {A B} (f : A -> M B) (l : list A) : M (list B) :=
  match l with
  | [] => ret []
  | a :: l' => b <~ f a ;; bs <~ mmapM f l' ;; ret (b :: bs)
  end.

Definition run {A} (m : M A) : list event * result A := m [].

(** ** The steps of [Scorecam.__call__] *)

Section Engine.

Variable h : host.

(** Lines 112-117: the cap on the number of channels. *)
Definition resolve_max_N (max_N : option Z) (penultimate_output : tensor) : M Z :=
  match max_N with
  | None =>
      K <~ lift (shape_last penultimate_output) ;;
      call StepsAllowed (Ok (get_num_of_steps_allowed h (Z.of_nat K)))
  | Some n =>
      if (n =? -1)%Z then
        K <~ lift (shape_last penultimate_output) ;;
        call StepsAllowed (Ok (get_num_of_steps_allowed h (Z.of_nat K)))
      else if (n =? 0)%Z then raise (ValueError MaxNZero)
      else call StepsAllowed (Ok (get_num_of_steps_allowed h n))
  end.

(** [activation_map_std]: one row per batch element, one entry per channel. *)
Definition activation_map_std (penultimate_output : tensor) : list (list Q) :=
  map (fun b => map (fun c => reduce_std h (channel_values penultimate_output b c))
                    (seq 0 (last_dim penultimate_output)))
      (seq 0 (batch_dim penultimate_output)).

(** Lines 123-124: the channels kept. *)
Definition top_k_indices (penultimate_output : tensor) (max_N : Z) : result (list nat) :=
  rows <- mapM (fun row => top_k row max_N) (activation_map_std penultimate_output) ;;
  Ok (unique (concat rows)).

(** Lines 118-125. *)
Definition select_channels (penultimate_output : tensor) (max_N : Z) : result tensor :=
  K <- shape_last penultimate_output ;;
  if (max_N <? Z.of_nat K)%Z then
    idx <- top_k_indices penultimate_output max_N ;;
    Ok (gather_last penultimate_output idx)
  else Ok penultimate_output.

(** Lines 136-148 for one map: minimum and maximum over the inner axes,
    kept as axes of length one and broadcast against the map.  With no inner
    axis to reduce, NumPy returns the map itself as its minimum and maximum. *)
Definition normalize (activation_map : tensor) : result tensor :=
  let K := last_dim activation_map in
  let P := numel (inner_dims activation_map) in
  if ndim activation_map <? 2 then
    Ok (mkTensor (shape activation_map)
          (map (fun a => ((a - a) / (a - a + epsilon h))%Q) (data activation_map)))
  else if P =? 0 then Raise (ValueError EmptySequence)
  else
    Ok (mkTensor (shape activation_map)
          (map (fun j =>
                  let b := j / (P * K) in
                  let c := j mod K in
                  let mn := list_min (channel_values activation_map b c) in
                  let mx := list_max (channel_values activation_map b c) in
                  ((nth j (data activation_map) 0%Q - mn) / (mx - mn + epsilon h))%Q)
               (seq 0 (length (data activation_map))))).

(** Lines 130-132 for one input. *)
Definition upsample (penultimate_output seed_input : tensor) : M tensor :=
  factor <~ lift (zoom_factor (removelast (shape penultimate_output))
                              (removelast (shape seed_input))) ;;
  call Zoom (zoom h penultimate_output (factor ++ [1%Q])).

(** Lines 151-169 for one input. *)
Definition mask_seed_input (seed_input activation_map : tensor) : result tensor :=
  let input_shape := shape seed_input in
  let map_shape := shape activation_map in
  let input_tile_axes := last map_shape 0 :: repeat 1 (length input_shape) in
  mask_template <- np_tile h seed_input input_tile_axes ;;
  normalized_activation_map <- normalize activation_map ;;
  let map_transpose_axes := (length map_shape - 1) :: removelast (seq 0 (length map_shape)) in
  mask <- np_transpose h normalized_activation_map map_transpose_axes ;;
  let map_tile_axes := repeat 1 (length map_shape) ++ [last input_shape 0] in
  mask <- np_tile h (np_expand_dims h mask) map_tile_axes ;;
  masked_seed_input <- np_multiply h mask_template mask ;;
  np_reshape h masked_seed_input (None :: map Some (skipn 2 (shape masked_seed_input))).

(** Lines 177-180 for one output of the model. *)
Definition score_weights (batch channels : nat) (score : Score) (prediction : tensor)
  : M tensor :=
  w <~ mmapM (fun p => call ScoreCall (Score_call score p)) (np_iter h prediction) ;;
  w <~ lift (np_array h w) ;;
  w <~ lift (np_reshape h w [Some batch; None; Some channels]) ;;
  lift (np_mean h w 1).

(** What [__call__] returns: one map, or a list of maps. *)
Inductive cams : Type :=
| OneCam (cam : tensor)
| CamList (cam : list tensor).

Definition isinstance_list {A} (a : pyarg A) : bool :=
  match a with PyList _ => true | _ => false end.

(** Lines 194-195 for one input. *)
Definition expand (cam seed_input : tensor) : M tensor :=
  factor <~ lift (zoom_factor (shape cam) (shape seed_input)) ;;
  call Zoom (zoom h cam factor).

(** [Scorecam.__call__].  [penultimate_layer], [seek_penultimate_conv_layer]
    and [training] only reach [penultimate_model], which stands for the
    extracted model applied with them. *)
Definition Scorecam_call (score : pyarg Score) (seed_input : pyarg tensor)
    (activation_modifier : option (tensor -> result tensor))
    (batch_size : nat) (max_N : option Z)
    (expand_cam standardize_cam : bool) : M cams :=
  (* Preparing *)
  scores <~ call PrepareScores (get_scores_for_multiple_outputs h score) ;;
  seed_inputs <~ call PrepareSeedInputs (get_seed_inputs_for_multiple_inputs h seed_input) ;;
  (* Processing score-cam *)
  penultimate_output <~ call PenultimateForward (penultimate_model h seed_inputs) ;;
  let penultimate_output :=
    if is_mixed_precision h then tf_cast h penultimate_output else penultimate_output in
  max_N <~ resolve_max_N max_N penultimate_output ;;
  penultimate_output <~ lift (select_channels penultimate_output max_N) ;;
  channels <~ lift (shape_last penultimate_output) ;;
  (* Upsampling activation-maps *)
  upsampled_activation_maps <~ mmapM (upsample penultimate_output) seed_inputs ;;
  (* Normalizing activation-maps, masking inputs *)
  masked_seed_inputs <~
    lift (mapM (fun sm => mask_seed_input (fst sm) (snd sm))
               (combine seed_inputs upsampled_activation_maps)) ;;
  (* Predicting masked seed-inputs *)
  preds <~ call Predict (predict h masked_seed_inputs batch_size) ;;
  preds <~ lift (mapM (fun prediction =>
                         np_reshape h prediction
                           [Some channels; None; Some (last_dim prediction)]) preds) ;;
  (* Calculating weights *)
  weights <~ mmapM (fun sp => score_weights (batch_dim penultimate_output) channels
                                            (fst sp) (snd sp))
                   (combine scores preds) ;;
  weights <~ lift (np_array h weights) ;;
  weights <~ lift (np_sum h weights 0) ;;
  (* Generate cam *)
  cam <~ lift (batch_dot h penultimate_output weights) ;;
  cam <~ match activation_modifier with
         | Some f => call ActivationModifier (f cam)
         | None => ret cam
         end ;;
  if negb expand_cam then
    cam <~ (if standardize_cam then call Standardize (standardize h cam) else ret cam) ;;
    ret (OneCam cam)
  else
    cam <~ mmapM (expand cam) seed_inputs ;;
    cam <~ (if standardize_cam
            then mmapM (fun x => call Standardize (standardize h x)) cam
            else ret cam) ;;
    if (num_inputs h =? 1) && negb (isinstance_list seed_input) then
      match cam with
      | [] => raise IndexError
      | cam0 :: _ => ret (OneCam cam0)
      end
    else ret (CamList cam).

End Engine.

End Scorecam.

(* ================================================================== *)
(** * A small host model, for running the engine *)

Module Sample.

Import Scorecam.

(** Reduction of one axis: [f] is applied to the entries along [axis]. *)
Definition reduce_axis (f : list Q -> Q) (t : tensor) (axis : nat) : result tensor :=
  if ndim t <=? axis then Raise InvalidArgumentError
  else
    let outer := numel (firstn axis (shape t)) in
    let n := nth axis (shape t) 0 in
    let inner := numel (skipn (S axis) (shape t)) in
    Ok (mkTensor (firstn axis (shape t) ++ skipn (S axis) (shape t))
          (flat_map (fun o =>
             map (fun i => f (map (fun m => nth ((o * n + m) * inner + i) (data t) 0%Q)
                                  (seq 0 n)))
                 (seq 0 inner))
             (seq 0 outer))).

Definition all_ones (l : list nat) : bool := forallb (fun n => n =? 1) l.

(** [np.tile] for the two patterns the engine uses: copies along a new
    leading axis, and copies of a last axis of length one. *)
Definition tile (t : tensor) (reps : list nat) : result tensor :=
  if (length reps =? S (ndim t)) && all_ones (tl reps) then
    Ok (mkTensor (hd 0 reps :: shape t) (concat (repeat (data t) (hd 0 reps))))
  else if (length reps =? ndim t) && all_ones (removelast reps) && (last_dim t =? 1) then
    Ok (mkTensor (removelast (shape t) ++ [last reps 0])
                 (flat_map (fun v => repeat v (last reps 0)) (data t)))
  else Raise InvalidArgumentError.

(** [np.transpose] for the one permutation the engine uses: the last axis
    moved to the front. *)
Definition transpose (t : tensor) (axes : list nat) : result tensor :=
  if list_eq_dec Nat.eq_dec axes ((ndim t - 1) :: removelast (seq 0 (ndim t))) then
    let K := last_dim t in
    let rows := numel (removelast (shape t)) in
    Ok (mkTensor (K :: removelast (shape t))
          (flat_map (fun c => map (fun r => nth (r * K + c) (data t) 0%Q) (seq 0 rows))
                    (seq 0 K)))
  else Raise InvalidArgumentError.

Definition expand_dims (t : tensor) : tensor := mkTensor (shape t ++ [1]) (data t).

Fixpoint map2 {A B C} (f : A -> B -> C) (l1 : list A) (l2 : list B) : list C :=
  match l1, l2 with
  | a :: l1', b :: l2' => f a b :: map2 f l1' l2'
  | _, _ => []
  end.

Definition multiply (a b : tensor) : result tensor :=
  if list_eq_dec Nat.eq_dec (shape a) (shape b)
  then Ok (mkTensor (shape a) (map2 Qmult (data a) (data b)))
  else Raise InvalidArgumentError.

Definition known_dims (sh : list (option nat)) : nat :=
  fold_right (fun o acc => match o with Some n => n * acc | None => acc end) 1 sh.

Definition reshape (t : tensor) (sh : list (option nat)) : result tensor :=
  let free := length (data t) / known_dims sh in
  let sh' := map (fun o => match o with Some n => n | None => free end) sh in
  if numel sh' =? length (data t) then Ok (mkTensor sh' (data t))
  else Raise InvalidArgumentError.

Definition iter (t : tensor) : list tensor :=
  let n := numel (tl (shape t)) in
  map (fun i => mkTensor (tl (shape t)) (firstn n (skipn (i * n) (data t))))
      (seq 0 (batch_dim t)).

Definition array (l : list tensor) : result tensor :=
  match l with
  | [] => Ok (mkTensor [0] [])
  | t :: _ => Ok (mkTensor (length l :: shape t) (concat (map data l)))
  end.

(** A resampling that repeats the buffer cyclically: only its shape follows
    SciPy's [zoom]. *)
Definition resample (t : tensor) (factor : list Q) : result tensor :=
  if length factor =? ndim t then
    let sh := map (fun nf => Z.to_nat (py_round (inject_Z (Z.of_nat (fst nf)) * snd nf)))
                  (combine (shape t) factor) in
    Ok (mkTensor sh (map (fun j => nth (j mod length (data t)) (data t) 0%Q)
                         (seq 0 (numel sh))))
  else Raise InvalidArgumentError.

(** [K.batch_dot] of a [(B, ..., K)] tensor and [(B, K)] weights. *)
Definition dot (t w : tensor) : result tensor :=
  let K := last_dim t in
  let P := numel (inner_dims t) in
  Ok (mkTensor (removelast (shape t))
        (flat_map (fun b =>
           map (fun p => Qred (Qsum (map (fun c => (at3 t P K b p c * nth (b * K + c) (data w) 0)%Q)
                                         (seq 0 K))))
               (seq 0 P))
           (seq 0 (batch_dim t)))).

(** A model of two outputs per sample: the sum of the sample and a constant. *)
Definition predict_sum (inputs : list tensor) (batch_size : nat) : result (list tensor) :=
  match inputs with
  | [x] =>
      let n := numel (tl (shape x)) in
      Ok [mkTensor [batch_dim x; 2]
            (flat_map (fun i => [Qred (Qsum (firstn n (skipn (i * n) (data x)))); 1%Q])
                      (seq 0 (batch_dim x)))]
  | _ => Raise (CollaboratorError 1)
  end.

(** Rescaling of the whole map to the unit interval. *)
Definition rescale (eps : Q) (t : tensor) : result tensor :=
  let mn := list_min (data t) in
  let mx := list_max (data t) in
  Ok (mkTensor (shape t) (map (fun a => Qred ((a - mn) / (mx - mn + eps))) (data t))).

Definition spread (l : list Q) : Q := (list_max l - list_min l)%Q.

Definition one_input (seed_input : pyarg tensor) : result (list tensor) :=
  match listify seed_input true with
  | [Some x] => Ok [x]
  | _ => Raise (ValueError ValuesRequired)
  end.

Definition one_score (score : pyarg Score) : result (list Score) :=
  match listify score true with
  | [Some s] => Ok [s]
  | _ => Raise (ValueError ValuesRequired)
  end.

(** The activation the extracted model returns: one sample, 2 x 2
    positions, three channels. *)
Definition activation : tensor :=
  mkTensor [1; 2; 2; 3]
    [0; 1; 5;   1; 1; 3;
     2; 1; 1;   3; 1; 2]%Q.

Definition sample_host : host :=
  {| num_inputs := 1;
     get_scores_for_multiple_outputs := one_score;
     get_seed_inputs_for_multiple_inputs := one_input;
     penultimate_model := fun _ => Ok activation;
     is_mixed_precision := false;
     tf_cast := fun t => t;
     get_num_of_steps_allowed := fun n => n;
     reduce_std := spread;
     epsilon := (1 # 10000000)%Q;
     zoom := resample;
     np_tile := tile;
     np_transpose := transpose;
     np_expand_dims := expand_dims;
     np_multiply := multiply;
     np_reshape := reshape;
     np_iter := iter;
     np_array := array;
     np_mean := reduce_axis mean;
     np_sum := reduce_axis Qsum;
     predict := predict_sum;
     batch_dot := dot;
     standardize := rescale (1 # 10000000)%Q |}.

(** A host whose layer lookup fails. *)
Definition failing_host : host :=
  {| num_inputs := 1;
     get_scores_for_multiple_outputs := one_score;
     get_seed_inputs_for_multiple_inputs := one_input;
     penultimate_model := fun _ => Raise (CollaboratorError 0);
     is_mixed_precision := false;
     tf_cast := fun t => t;
     get_num_of_steps_allowed := fun n => n;
     reduce_std := spread;
     epsilon := (1 # 10000000)%Q;
     zoom := resample;
     np_tile := tile;
     np_transpose := transpose;
     np_expand_dims := expand_dims;
     np_multiply := multiply;
     np_reshape := reshape;
     np_iter := iter;
     np_array := array;
     np_mean := reduce_axis mean;
     np_sum := reduce_axis Qsum;
     predict := predict_sum;
     batch_dot := dot;
     standardize := rescale (1 # 10000000)%Q |}.

(** A map of one channel whose values span the unit interval. *)
Definition unit_map : tensor :=
  mkTensor [1; 2; 2; 1] [0; 1 # 2; 1 # 4; 1]%Q.

(** Two samples, two positions, three channels: the first sample varies
    most in channel 0, the second in channel 2. *)
Definition two_samples : tensor :=
  mkTensor [2; 2; 3]
    [0; 1; 1;   9; 1; 2;
     1; 1; 0;   2; 1; 9]%Q.

(** One sample, two positions, three channels, each channel constant. *)
Definition flat_map : tensor :=
  mkTensor [1; 2; 3]
    [5; 7; 1;
     5; 7; 1]%Q.

(** A seed input of one sample, 4 x 4 positions, one channel. *)
Definition seed : tensor :=
  mkTensor [1; 4; 4; 1] (map (fun n => inject_Z (Z.of_nat n)) (seq 1 16)).

Definition first_class : Score := Categorical (Scores.mkCategoricalScore [0%Z]).

Definition relu (cam : tensor) : result tensor :=
  Ok (mkTensor (shape cam) (map (fun v => Qmax v 0) (data cam))).

End Sample.

(* ================================================================== *)
(** * The notions the specification speaks in *)

Module Spec.

(** The target value (or index) that belongs to batch element [i]: the only
    configured one if there is exactly one, the [i]-th otherwise. *)
Definition corresponding {A} (configured : list A) (i : nat) : option A :=
  match configured with
  | [a] => Some a
  | _ => nth_error configured i
  end.

(** The channel a configured index selects among [K] channels; a negative
    index counts from the last channel. *)
Definition channel_of (K : nat) (index : Z) : nat :=
  Z.to_nat (index mod Z.of_nat K).

(** Position [i] ranks before position [j] in a row of values: it holds the
    larger value, or an equal one at the lower position. *)
Definition before (values : list Q) (i j : nat) : Prop :=
  (nth j values 0 < nth i values 0)%Q \/
  ((nth i values 0 == nth j values 0)%Q /\ i < j).

(** The same order on the (value, position) pairs the sort works on. *)
Definition before_pair (a b : Q * nat) : Prop :=
  (fst b < fst a)%Q \/ ((fst a == fst b)%Q /\ snd a < snd b).

(** [sel] lists the positions of the [k] highest values of a row, highest
    first. *)
Definition is_top_k (values : list Q) (k : nat) (sel : list nat) : Prop :=
  length sel = k /\
  (forall i, In i sel -> i < length values) /\
  StronglySorted (before values) sel /\
  (forall i j, In i sel -> j < length values -> ~ In j sel -> before values i j).





End Spec.

(* ================================================================== *)
(** * The calls a run makes, by phase *)

Module Phases.

Import Scorecam.

(** The collaborator calls of the part of [__call__] up to the masking of
    the inputs, and of the part after the prediction. *)
Definition before_predict (ev : event) : bool :=
  match ev with
  | PrepareScores | PrepareSeedInputs | PenultimateForward | StepsAllowed | Zoom => true
  | _ => false
  end.

Definition after_predict (ev : event) : bool :=
  match ev with
  | ScoreCall | ActivationModifier | Zoom | Standardize => true
  | _ => false
  end.

(** Whatever [m] is started with, it keeps the calls recorded so far and
    adds only calls that [S] admits. *)
Definition emits {A} (S : event -> bool) (m : M A) : Prop :=
  forall tr tr' r, m tr = (tr', r) ->
    exists s, tr' = tr ++ s /\ forallb S s = true.

(** The calls [m] adds fall into a part before the prediction, at most one
    prediction, and a part after it that is empty unless the prediction was
    made; a computation that returns has made the prediction. *)
Definition phased {A} (m : M A) : Prop :=
  forall tr tr' r, m tr = (tr', r) ->
    exists pre mid post,
      tr' = tr ++ pre ++ mid ++ post /\
      forallb before_predict pre = true /\
      (mid = [] \/ mid = [Predict]) /\
      forallb after_predict post = true /\
      (mid = [] -> post = []) /\
      (forall a, r = Ok a -> mid = [Predict]).

End Phases.

(* ================================================================== *)
(** * Lists, shapes and buffers *)

Lemma numel_app (a b : list nat) : numel (a ++ b) = numel a * numel b.
Proof.
  induction a as [|x a IH]; simpl.
  - lia.
  - rewrite IH. lia.
Qed.

Lemma shape_decompose (t : tensor) :
  2 <= ndim t -> shape t = batch_dim t :: inner_dims t ++ [last_dim t].
Proof.
  unfold ndim, batch_dim, inner_dims, last_dim.
  destruct (shape t) as [|B rest]; simpl; [lia|].
  destruct rest as [|x rest]; [simpl; lia|].
  intros _. f_equal.
  change (last (B :: x :: rest) 0) with (last (x :: rest) 0).
  apply app_removelast_last. discriminate.
Qed.

Lemma wf_length (t : tensor) :
  wf t -> 2 <= ndim t ->
  length (data t) = batch_dim t * (numel (inner_dims t) * last_dim t).
Proof.
  intros Hwf Hn. unfold wf in Hwf. rewrite Hwf.
  rewrite (shape_decompose t Hn) at 1. simpl. rewrite numel_app. simpl. lia.
Qed.

Lemma nth_concat_uniform {A} (ls : list (list A)) (m i j : nat) (d : A) :
  Forall (fun l => length l = m) ls ->
  i < length ls -> j < m ->
  nth (i * m + j) (concat ls) d = nth j (nth i ls []) d.
Proof.
  intros Hall. revert i. induction Hall as [|l ls Hl Hall IH]; intros i Hi Hj.
  - simpl in Hi. lia.
  - simpl. destruct i as [|i].
    + simpl. rewrite app_nth1 by lia. reflexivity.
    + rewrite app_nth2 by (rewrite Hl; simpl; lia).
      rewrite Hl. replace (S i * m + j - m) with (i * m + j) by (simpl; lia).
      apply IH; [simpl in Hi; lia | assumption].
Qed.

Lemma length_concat_uniform {A} (ls : list (list A)) (m : nat) :
  Forall (fun l => length l = m) ls -> length (concat ls) = length ls * m.
Proof.
  induction 1 as [|l ls Hl Hall IH]; simpl.
  - reflexivity.
  - rewrite length_app, IH, Hl. reflexivity.
Qed.

Lemma nth_map_seq {A} (f : nat -> A) (n i : nat) (d : A) :
  i < n -> nth i (map f (seq 0 n)) d = f i.
Proof.
  intros Hi. rewrite (nth_indep _ d (f 0)) by (rewrite length_map, length_seq; exact Hi).
  rewrite map_nth, seq_nth by exact Hi. reflexivity.
Qed.


Lemma length_flat_map_uniform {A} (f : nat -> list A) (n m : nat) :
  (forall r, length (f r) = m) -> length (flat_map f (seq 0 n)) = n * m.
Proof.
  intros Hlen. rewrite flat_map_concat_map, (length_concat_uniform _ m).
  - rewrite length_map, length_seq. reflexivity.
  - apply Forall_forall. intros l Hin. apply in_map_iff in Hin.
    destruct Hin as [x [<- _]]. apply Hlen.
Qed.

(** ** [mapM] *)

Lemma mapM_Ok {A B} (f : A -> result B) (l : list A) (bs : list B) :
  mapM f l = Ok bs -> Forall2 (fun a b => f a = Ok b) l bs.
Proof.
  revert bs. induction l as [|a l IH]; simpl; intros bs H.
  - inversion H. constructor.
  - destruct (f a) as [b|e] eqn:Ha; simpl in H; [|discriminate].
    destruct (mapM f l) as [bs'|e] eqn:Hl; simpl in H; [|discriminate].
    inversion H; subst. constructor; auto.
Qed.

Lemma mapM_total {A B} (f : A -> result B) (g : A -> B) (l : list A) :
  (forall a, In a l -> f a = Ok (g a)) -> mapM f l = Ok (map g l).
Proof.
  induction l as [|a l IH]; simpl; intros H.
  - reflexivity.
  - rewrite (H a (or_introl eq_refl)). simpl. rewrite IH by auto. reflexivity.
Qed.

Lemma mapM_Raise {A B} (f : A -> result B) (l : list A) (e : exn) :
  mapM f l = Raise e -> exists a, In a l /\ f a = Raise e.
Proof.
  induction l as [|a l IH]; simpl; intros H.
  - discriminate.
  - destruct (f a) as [b|e'] eqn:Ha; simpl in H.
    + destruct (mapM f l) as [bs'|e''] eqn:Hl; simpl in H; [discriminate|].
      inversion H; subst. destruct (IH eq_refl) as [a' [Hin Ha']]. eauto.
    + inversion H; subst. eauto.
Qed.

(* ================================================================== *)
(** * Facts about scores.py *)

Module ScoresFacts.

Import Scores.

(** ** InactiveScore *)


(** ** The constructors *)

Lemma None_in_iff {A} (l : list (option A)) : None_in l = true <-> In None l.
Proof.
  unfold None_in. rewrite existsb_exists. split.
  - intros [o [Hin Ho]]. destruct o; [discriminate | exact Hin].
  - intros Hin. exists None. split; [exact Hin | reflexivity].
Qed.

Lemma None_in_false {A} (l : list (option A)) : ~ In None l -> None_in l = false.
Proof.
  intros H. destruct (None_in l) eqn:E; [|reflexivity].
  apply None_in_iff in E. contradiction.
Qed.

Lemma length_eqb_0 {A} (l : list A) : (length l =? 0) = true <-> l = [].
Proof.
  rewrite Nat.eqb_eq. split.
  - apply length_zero_iff_nil.
  - intros ->. reflexivity.
Qed.

Lemma BinaryScore_init_rejects (tv : list (option pyval)) :
  tv = [] \/ In None tv ->
  exists e, BinaryScore_init (PyList tv) = Raise e /\ invalid_argument e = true.
Proof.
  intros H. unfold BinaryScore_init; simpl.
  destruct (None_in tv) eqn:EN.
  - eexists; split; reflexivity.
  - destruct H as [-> | H].
    + eexists; split; reflexivity.
    + apply None_in_iff in H. congruence.
Qed.

Lemma BinaryScore_init_accepts (tv : list (option pyval)) :
  tv <> [] -> ~ In None tv ->
  BinaryScore_init (PyList tv) = Ok (mkBinaryScore (map truth tv)).
Proof.
  intros Hne HN. unfold BinaryScore_init; simpl.
  rewrite (None_in_false _ HN).
  destruct (length (map truth tv) =? 0) eqn:E; [|reflexivity].
  apply length_eqb_0 in E. apply map_eq_nil in E. contradiction.
Qed.

Lemma CategoricalScore_init_rejects (ind : list (option Z)) :
  ind = [] \/ In None ind ->
  exists e, CategoricalScore_init (PyList ind) = Raise e /\ invalid_argument e = true.
Proof.
  intros H. unfold CategoricalScore_init; simpl.
  destruct (None_in ind) eqn:EN.
  - eexists; split; reflexivity.
  - destruct H as [-> | H].
    + eexists; split; reflexivity.
    + apply None_in_iff in H. congruence.
Qed.

Lemma CategoricalScore_init_accepts (ind : list (option Z)) :
  ind <> [] -> ~ In None ind ->
  CategoricalScore_init (PyList ind) = Ok (mkCategoricalScore (all_Some ind)).
Proof.
  intros Hne HN. unfold CategoricalScore_init; simpl.
  rewrite (None_in_false _ HN).
  destruct (length ind =? 0) eqn:E; [|reflexivity].
  apply length_eqb_0 in E. contradiction.
Qed.

Lemma all_Some_map {A} (l : list (option A)) :
  ~ In None l -> map Some (all_Some l) = l.
Proof.
  induction l as [|o l IH]; simpl; intros H.
  - reflexivity.
  - destruct o as [a|].
    + simpl. rewrite IH; [reflexivity | tauto].
    + exfalso. apply H. left. reflexivity.
Qed.

(** C6.  [BinaryScore] and [CategoricalScore] constructed with an empty list,
    or with a list that holds a [None], raise an invalid-argument error;
    constructed with a list that has an entry and no [None], they succeed:
    the targets are the entries coerced to bool, the indices are the
    entries. *)
Theorem constructors_reject_empty_and_None
    (tv : list (option pyval)) (ind : list (option Z)) :
  (tv = [] \/ In None tv ->
   exists e, BinaryScore_init (PyList tv) = Raise e /\ invalid_argument e = true) /\
  (tv <> [] -> ~ In None tv ->
   BinaryScore_init (PyList tv) = Ok (mkBinaryScore (map truth tv))) /\
  (ind = [] \/ In None ind ->
   exists e, CategoricalScore_init (PyList ind) = Raise e /\ invalid_argument e = true) /\
  (ind <> [] -> ~ In None ind ->
   exists s, CategoricalScore_init (PyList ind) = Ok s /\ map Some (indices s) = ind).
Proof.
  split; [apply BinaryScore_init_rejects|].
  split; [apply BinaryScore_init_accepts|].
  split; [apply CategoricalScore_init_rejects|].
  intros Hne HN. eexists. split.
  - apply CategoricalScore_init_accepts; assumption.
  - simpl. apply all_Some_map. exact HN.
Qed.

Lemma constructors_reject_empty_and_None_witness :
  (exists e, BinaryScore_init (PyList []) = Raise e /\ invalid_argument e = true) /\
  (exists e, BinaryScore_init (PyList [Some (PyBool true); None]) = Raise e /\
             invalid_argument e = true) /\
  BinaryScore_init (PyList [Some (PyBool true); Some (PyInt 0)])
    = Ok (mkBinaryScore [true; false]) /\
  (exists e, CategoricalScore_init (PyList [None]) = Raise e /\ invalid_argument e = true) /\
  (exists s, CategoricalScore_init (PyList [Some 1%Z; Some 294%Z]) = Ok s /\
             map Some (indices s) = [Some 1%Z; Some 294%Z]).
Proof.
  split.
  { apply (proj1 (constructors_reject_empty_and_None [] [])). left. reflexivity. }
  split.
  { apply (proj1 (constructors_reject_empty_and_None [Some (PyBool true); None] [])).
    right. simpl. auto. }
  split.
  { apply (proj1 (proj2 (constructors_reject_empty_and_None
                           [Some (PyBool true); Some (PyInt 0)] []))).
    - discriminate.
    - simpl. intros [H | [H | H]]; [discriminate | discriminate | exact H]. }
  split.
  { apply (proj1 (proj2 (proj2 (constructors_reject_empty_and_None [] [None])))).
    right. simpl. auto. }
  apply (proj2 (proj2 (proj2 (constructors_reject_empty_and_None
                                [] [Some 1%Z; Some 294%Z])))).
  - discriminate.
  - simpl. intros [H | [H | H]]; [discriminate | discriminate | exact H].
Defined.

(** ** BinaryScore.__call__ *)

Lemma binary_shape_batch (output : tensor) :
  binary_shape_ok output = true -> numel (shape output) = batch_dim output.
Proof.
  unfold binary_shape_ok, ndim, batch_dim.
  destruct (shape output) as [|B [|one [|x rest]]]; simpl; try discriminate.
  - intros _. lia.
  - rewrite Nat.eqb_eq. intros ->. lia.
Qed.

Lemma BinaryScore_call_Ok (self : BinaryScore) (output : tensor) :
  binary_shape_ok output = true ->
  BinaryScore_call self output =
  Ok (map (fun vp => binary_value (fst vp) (snd vp))
          (combine (data output) (paired_targets self output))).
Proof.
  unfold binary_shape_ok, BinaryScore_call, paired_targets. intros H.
  destruct (ndim output =? 1); simpl in *; [reflexivity|].
  rewrite H. reflexivity.
Qed.

Lemma BinaryScore_call_Raise (self : BinaryScore) (output : tensor) :
  binary_shape_ok output = false ->
  BinaryScore_call self output = Raise (ValueError OutputShape).
Proof.
  unfold binary_shape_ok, BinaryScore_call. intros H.
  destruct (ndim output =? 1); simpl in *; [discriminate|].
  rewrite H. reflexivity.
Qed.

Lemma py_list_mul_single {A} (a : A) (n : nat) : py_list_mul [a] n = repeat a n.
Proof.
  unfold py_list_mul. induction n as [|n IH]; simpl; [reflexivity | now rewrite IH].
Qed.

Lemma combine_repeat {A B} (l : list A) (b : B) (n : nat) :
  length l <= n -> combine l (repeat b n) = map (fun a => (a, b)) l.
Proof.
  revert n. induction l as [|a l IH]; intros n Hn; simpl.
  - reflexivity.
  - destruct n as [|n]; simpl in *; [lia|]. rewrite IH by lia. reflexivity.
Qed.

Lemma nth_error_combine {A B} (l1 : list A) (l2 : list B) (i : nat) (a : A) (b : B) :
  nth_error l1 i = Some a -> nth_error l2 i = Some b ->
  nth_error (combine l1 l2) i = Some (a, b).
Proof.
  revert l2 i. induction l1 as [|x l1 IH]; intros l2 i H1 H2.
  - destruct i; discriminate.
  - destruct l2 as [|y l2]; [destruct i; discriminate|].
    destruct i as [|i]; simpl in *.
    + congruence.
    + apply IH; assumption.
Qed.

Lemma single_target_score (self : BinaryScore) (output : tensor) (positive : bool) :
  wf output -> binary_shape_ok output = true ->
  target_values self = [positive] ->
  BinaryScore_call self output =
  Ok (map (fun val => binary_value val positive) (data output)).
Proof.
  intros Hwf Hshape Htv. rewrite (BinaryScore_call_Ok _ _ Hshape). f_equal.
  unfold paired_targets. rewrite Htv. simpl length. simpl Nat.eqb. simpl andb.
  unfold wf in Hwf.
  change (batch_dim (reshape_flat output)) with (numel (shape output)).
  destruct (1 <? numel (shape output)) eqn:E.
  - rewrite py_list_mul_single, combine_repeat by lia.
    rewrite map_map. reflexivity.
  - apply Nat.ltb_ge in E.
    destruct (data output) as [|v [|w rest]]; simpl in *; try reflexivity. lia.
Qed.

Lemma paired_score (self : BinaryScore) (output : tensor) (i : nat) (val : Q)
    (positive : bool) :
  wf output -> binary_shape_ok output = true ->
  nth_error (data output) i = Some val ->
  Spec.corresponding (target_values self) i = Some positive ->
  exists score, BinaryScore_call self output = Ok score /\
                nth_error score i = Some (binary_value val positive).
Proof.
  intros Hwf Hshape Hval Hpos.
  destruct (target_values self) as [|t [|t' rest]] eqn:Htv.
  - simpl in Hpos. destruct i; discriminate.
  - simpl in Hpos. inversion Hpos; subst t.
    eexists. split; [apply (single_target_score _ _ positive); assumption|].
    apply (map_nth_error (fun v : Q => binary_value v positive)). exact Hval.
  - eexists. split; [apply BinaryScore_call_Ok; exact Hshape|].
    unfold paired_targets. rewrite Htv.
    change (length (t :: t' :: rest) =? 1) with false. simpl andb. cbv iota.
    unfold Spec.corresponding in Hpos.
    rewrite (map_nth_error _ _ _ (nth_error_combine _ _ _ _ _ Hval Hpos)).
    reflexivity.
Qed.

(** C4.  On an output of shape [(batch,)] or [(batch, 1)] [BinaryScore.__call__]
    returns, for a batch element, the output value when the corresponding
    target value is true and one minus that value when it is false, the only
    target value corresponding to every batch element when one was
    configured.  [BinaryScore([True])] on [[0.3]] returns [[0.3]] and
    [BinaryScore([False])] on [[0.3]] returns [[0.7]]. *)
Theorem BinaryScore_call_values :
  (forall (self : BinaryScore) (output : tensor),
      wf output -> binary_shape_ok output = true ->
      exists score,
        BinaryScore_call self output = Ok score /\
        (forall i val positive,
            nth_error (data output) i = Some val ->
            Spec.corresponding (target_values self) i = Some positive ->
            nth_error score i = Some (binary_value val positive)) /\
        (forall positive,
            target_values self = [positive] ->
            length score = batch_dim output /\
            score = map (fun val => binary_value val positive) (data output))) /\
  (exists self, BinaryScore_init (PyList [Some (PyBool true)]) = Ok self /\
                BinaryScore_call self (mkTensor [1] [(3 # 10)%Q]) = Ok [(3 # 10)%Q]) /\
  (exists self, BinaryScore_init (PyList [Some (PyBool false)]) = Ok self /\
                BinaryScore_call self (mkTensor [1] [(3 # 10)%Q]) = Ok [(7 # 10)%Q]).
Proof.
  split; [|split; eexists; split; reflexivity].
  intros self output Hwf Hshape.
  rewrite (BinaryScore_call_Ok _ _ Hshape). eexists. split; [reflexivity|]. split.
  - intros i val positive Hval Hpos.
    destruct (paired_score self output i val positive Hwf Hshape Hval Hpos)
      as [score [Hcall Hnth]].
    rewrite (BinaryScore_call_Ok _ _ Hshape) in Hcall. inversion Hcall; subst score.
    exact Hnth.
  - intros positive Htv.
    pose proof (single_target_score self output positive Hwf Hshape Htv) as Hcall.
    rewrite (BinaryScore_call_Ok _ _ Hshape) in Hcall. inversion Hcall as [Heq].
    rewrite Heq. split; [|reflexivity].
    rewrite length_map. unfold wf in Hwf. rewrite Hwf.
    apply binary_shape_batch. exact Hshape.
Qed.

Lemma BinaryScore_call_values_witness :
  exists score,
    BinaryScore_call (mkBinaryScore [false])
                     (mkTensor [3; 1] [(3 # 10)%Q; (1 # 2)%Q; 1%Q]) = Ok score /\
    nth_error score 2 = Some (binary_value 1%Q false) /\
    length score = 3.
Proof.
  destruct (proj1 BinaryScore_call_values (mkBinaryScore [false])
              (mkTensor [3; 1] [(3 # 10)%Q; (1 # 2)%Q; 1%Q]) eq_refl eq_refl)
    as [score [Hcall [Hnth Hsingle]]].
  exists score. split; [exact Hcall|]. split.
  - apply Hnth; reflexivity.
  - apply (Hsingle false). reflexivity.
Defined.

(** C10.  A [BinaryScore] of more than one target value called on an output
    of shape [(batch,)] or [(batch, 1)] raises nothing, whatever the batch
    size: the result has as many entries as the shorter of the target values
    and the batch, entry [i] pairs output value [i] with target value [i],
    and what the longer side has beyond that is dropped. *)
Theorem BinaryScore_call_truncates (self : BinaryScore) (output : tensor) :
  wf output -> binary_shape_ok output = true ->
  1 < length (target_values self) ->
  exists score,
    BinaryScore_call self output = Ok score /\
    length score = Nat.min (length (target_values self)) (batch_dim output) /\
    score = map (fun vp => binary_value (fst vp) (snd vp))
                (combine (firstn (length score) (data output))
                         (firstn (length score) (target_values self))) /\
    (forall i val positive,
        nth_error (data output) i = Some val ->
        nth_error (target_values self) i = Some positive ->
        nth_error score i = Some (binary_value val positive)).
Proof.
  intros Hwf Hshape Hlen.
  rewrite (BinaryScore_call_Ok _ _ Hshape). eexists. split; [reflexivity|].
  assert (Hpt : paired_targets self output = target_values self).
  { unfold paired_targets.
    destruct (length (target_values self) =? 1) eqn:E; [|reflexivity].
    apply Nat.eqb_eq in E. lia. }
  rewrite Hpt.
  assert (Hl : length (map (fun vp : Q * bool => binary_value (fst vp) (snd vp))
                           (combine (data output) (target_values self)))
               = Nat.min (length (target_values self)) (batch_dim output)).
  { rewrite length_map, length_combine. unfold wf in Hwf.
    rewrite Hwf, (binary_shape_batch _ Hshape). lia. }
  split; [exact Hl|]. split.
  - rewrite Hl. f_equal.
    rewrite <- (binary_shape_batch _ Hshape). unfold wf in Hwf. rewrite <- Hwf.
    rewrite <- combine_firstn.
    rewrite firstn_all2; [reflexivity|]. rewrite length_combine. lia.
  - intros i val positive Hval Hpos.
    apply map_nth_error with (f := fun vp : Q * bool => binary_value (fst vp) (snd vp))
                             (d := (val, positive)).
    apply nth_error_combine; assumption.
Qed.

Lemma BinaryScore_call_truncates_witness :
  exists score,
    BinaryScore_call (mkBinaryScore [false; true])
                     (mkTensor [3; 1] [(3 # 10)%Q; (1 # 2)%Q; (1 # 4)%Q]) = Ok score /\
    length score = 2.
Proof.
  destruct (BinaryScore_call_truncates (mkBinaryScore [false; true])
              (mkTensor [3; 1] [(3 # 10)%Q; (1 # 2)%Q; (1 # 4)%Q]) eq_refl eq_refl)
    as [score [Hcall [Hlen _]]].
  - simpl. lia.
  - exists score. split; [exact Hcall | exact Hlen].
Defined.

(** ** CategoricalScore.__call__ *)

Lemma fold_left_max_spec (l : list Z) (z : Z) :
  (In (fold_left Z.max l z) (z :: l)) /\
  (forall x, In x (z :: l) -> (x <= fold_left Z.max l z)%Z).
Proof.
  revert z. induction l as [|y l IH]; intros z; simpl.
  - split; [left; reflexivity | intros x [<- | []]; lia].
  - destruct (IH (Z.max z y)) as [Hin Hle]. split.
    + destruct Hin as [Heq | Hin].
      * rewrite <- Heq. destruct (Z.max_spec z y) as [[_ ->] | [_ ->]]; auto.
      * right. right. exact Hin.
    + intros x [<- | [<- | Hx]].
      * specialize (Hle (Z.max z y) (or_introl eq_refl)). lia.
      * specialize (Hle (Z.max z y) (or_introl eq_refl)). lia.
      * apply Hle. right. exact Hx.
Qed.

Lemma py_max_spec (l : list Z) (m : Z) :
  py_max l = Ok m -> In m l /\ (forall x, In x l -> (x <= m)%Z).
Proof.
  destruct l as [|z l]; simpl; [discriminate|].
  intros H. inversion H; subst. apply fold_left_max_spec.
Qed.

Lemma py_max_nonempty (l : list Z) : l <> [] -> exists m, py_max l = Ok m.
Proof.
  destruct l as [|z l]; [congruence|]. intros _. eexists. reflexivity.
Qed.

Lemma axis_index_Raise (n : nat) (index : Z) (e : exn) :
  axis_index n index = Raise e -> e = IndexError.
Proof.
  unfold axis_index.
  destruct ((0 <=? index)%Z && (index <? Z.of_nat n)%Z); [discriminate|].
  destruct ((- Z.of_nat n <=? index)%Z && (index <? 0)%Z); [discriminate|].
  congruence.
Qed.

Lemma axis_index_Ok (n : nat) (index : Z) :
  (- Z.of_nat n <= index < Z.of_nat n)%Z ->
  axis_index n index = Ok (Spec.channel_of n index).
Proof.
  intros H. unfold axis_index, Spec.channel_of.
  destruct ((0 <=? index)%Z && (index <? Z.of_nat n)%Z) eqn:E1.
  - apply andb_prop in E1. destruct E1 as [E1 E2].
    apply Z.leb_le in E1. apply Z.ltb_lt in E2.
    rewrite Z.mod_small by lia. reflexivity.
  - destruct ((- Z.of_nat n <=? index)%Z && (index <? 0)%Z) eqn:E2.
    + apply andb_prop in E2. destruct E2 as [E2 E3].
      apply Z.leb_le in E2. apply Z.ltb_lt in E3.
      do 2 f_equal. apply Z.mod_unique with (q := (-1)%Z); lia.
    + apply andb_false_iff in E1. apply andb_false_iff in E2.
      rewrite Z.leb_gt, Z.ltb_ge in E1. rewrite Z.leb_gt, Z.ltb_ge in E2. lia.
Qed.

Lemma subscript_Raise (output : tensor) (i : nat) (index : Z) (e : exn) :
  subscript output i index = Raise e -> e = IndexError.
Proof.
  unfold subscript. destruct (batch_dim output <=? i); [congruence|].
  destruct (axis_index (last_dim output) index) as [c|e'] eqn:E; simpl.
  - discriminate.
  - intros H. inversion H; subst. eapply axis_index_Raise. exact E.
Qed.

Lemma subscript_Ok (output : tensor) (i : nat) (index : Z) :
  i < batch_dim output ->
  (- Z.of_nat (last_dim output) <= index < Z.of_nat (last_dim output))%Z ->
  subscript output i index =
  Ok (mkTensor (inner_dims output)
               (channel_values output i (Spec.channel_of (last_dim output) index))).
Proof.
  intros Hi Hidx. unfold subscript.
  destruct (batch_dim output <=? i) eqn:E; [apply Nat.leb_le in E; lia|].
  rewrite (axis_index_Ok _ _ Hidx). reflexivity.
Qed.

Lemma call_shape_error (self : CategoricalScore) (output : tensor) :
  CategoricalScore_call self output = Raise (ValueError OutputShape) <-> ndim output < 2.
Proof.
  unfold CategoricalScore_call. destruct (ndim output <? 2) eqn:E.
  - apply Nat.ltb_lt in E. tauto.
  - apply Nat.ltb_ge in E. split; [|lia]. intros H. exfalso.
    destruct (py_max (indices self)) as [m|e] eqn:Em; simpl in H.
    + destruct (Z.of_nat (last_dim output) <=? m)%Z; [discriminate|].
      match type of H with
      | bind (mapM ?f ?l) _ = _ => destruct (mapM f l) as [sc|e] eqn:Es; simpl in H
      end.
      * destruct (tf_stack sc) as [st|e] eqn:Et; simpl in H; [discriminate|].
        destruct sc; simpl in Et; [|discriminate]. congruence.
      * apply mapM_Raise in Es. destruct Es as [a [_ Ha]].
        apply subscript_Raise in Ha. congruence.
    + destruct (indices self); simpl in Em; [|discriminate]. congruence.
Qed.

Lemma call_index_error (self : CategoricalScore) (output : tensor) :
  CategoricalScore_call self output = Raise (ValueError InvalidIndexValue) <->
  2 <= ndim output /\
  exists index, In index (indices self) /\ (Z.of_nat (last_dim output) <= index)%Z.
Proof.
  unfold CategoricalScore_call. destruct (ndim output <? 2) eqn:E.
  - apply Nat.ltb_lt in E. split; [discriminate | lia].
  - apply Nat.ltb_ge in E.
    destruct (py_max (indices self)) as [m|e] eqn:Em; simpl.
    + destruct (py_max_spec _ _ Em) as [Hin Hmax].
      destruct (Z.of_nat (last_dim output) <=? m)%Z eqn:Ek.
      * apply Z.leb_le in Ek. split; [|reflexivity]. intros _. split; [exact E|].
        exists m. split; assumption.
      * apply Z.leb_gt in Ek. split.
        -- intros H. exfalso.
           match type of H with
           | bind (mapM ?f ?l) _ = _ => destruct (mapM f l) as [sc|e] eqn:Es; simpl in H
           end.
           ++ destruct (tf_stack sc) as [st|e] eqn:Et; simpl in H; [discriminate|].
              destruct sc; simpl in Et; [|discriminate]. congruence.
           ++ apply mapM_Raise in Es. destruct Es as [a [_ Ha]].
              apply subscript_Raise in Ha. congruence.
        -- intros [_ [index [Hi Hle]]]. specialize (Hmax index Hi). lia.
    + destruct (indices self) as [|z l]; simpl in Em; [|discriminate].
      split.
      * inversion Em; subst. discriminate.
      * intros [_ [index [[] _]]].
Qed.

(** C5, as the code has it.  [CategoricalScore.__call__] raises the
    invalid-shape error exactly on an output of rank below 2, and the
    invalid-index error exactly on an output of rank 2 or more for which a
    configured index is at least the size of the last axis.
    [CategoricalScore([5])] on an output of three channels raises the
    invalid-index error. *)
Theorem CategoricalScore_call_errors :
  (forall (self : CategoricalScore) (output : tensor),
      ((exists e, CategoricalScore_call self output = Raise e /\ invalid_shape e = true)
       <-> ndim output < 2) /\
      ((exists e, CategoricalScore_call self output = Raise e /\ invalid_index e = true)
       <-> 2 <= ndim output /\
           exists index, In index (indices self) /\
                         (Z.of_nat (last_dim output) <= index)%Z)) /\
  (exists self e,
      CategoricalScore_init (PyList [Some 5%Z]) = Ok self /\
      CategoricalScore_call self (mkTensor [1; 3] [(1 # 10)%Q; (2 # 10)%Q; (7 # 10)%Q])
      = Raise e /\ invalid_index e = true).
Proof.
  split.
  - intros self output. split.
    + rewrite <- call_shape_error. split.
      * intros [e [H He]]. destruct e as [[] | | | |]; try discriminate. exact H.
      * intros H. eexists. split; [exact H | reflexivity].
    + rewrite <- call_index_error. split.
      * intros [e [H He]]. destruct e as [[] | | | |]; try discriminate. exact H.
      * intros H. eexists. split; [exact H | reflexivity].
  - do 2 eexists. split; [reflexivity|]. split; reflexivity.
Qed.

(** C5, as it is stated, fails on an output of rank 1: with the index 5 and
    an output of shape [(3,)] a configured index is at least the size of the
    last axis, and the error raised is the invalid-shape one. *)
Lemma rank_error_comes_first :
  let self := mkCategoricalScore [5%Z] in
  let output := mkTensor [3] [(1 # 10)%Q; (2 # 10)%Q; (7 # 10)%Q] in
  (exists index, In index (indices self) /\ (Z.of_nat (last_dim output) <= index)%Z) /\
  CategoricalScore_call self output = Raise (ValueError OutputShape) /\
  ~ (exists e, CategoricalScore_call self output = Raise e /\ invalid_index e = true).
Proof.
  simpl. split; [|split].
  - exists 5%Z. split; [left; reflexivity | simpl; lia].
  - reflexivity.
  - intros [e [H He]]. inversion H; subst. discriminate.
Qed.

(** The indices [enumerate] runs over, one per batch element when one index
    or one index per batch element was configured. *)
Lemma broadcast_indices (configured : list Z) (n : nat) :
  1 <= n -> length configured = n \/ length configured = 1 ->
  exists paired,
    (if (length configured =? 1) && (length configured <? n)
     then py_list_mul configured n else configured) = paired /\
    length paired = n /\
    (forall index, In index paired -> In index configured) /\
    (forall i, i < n -> nth_error paired i = Spec.corresponding configured i).
Proof.
  intros Hn Hlen.
  destruct configured as [|x [|y rest]].
  - simpl in Hlen. lia.
  - exists (repeat x n). split; [|split; [|split]].
    + simpl. destruct (1 <? n) eqn:E.
      * apply py_list_mul_single.
      * apply Nat.ltb_ge in E. assert (n = 1) by lia. subst n. reflexivity.
    + apply repeat_length.
    + intros index Hin. apply repeat_spec in Hin. left. auto.
    + intros i Hi. simpl. apply nth_error_repeat. exact Hi.
  - exists (x :: y :: rest). split; [|split; [|split]].
    + reflexivity.
    + simpl in *. lia.
    + auto.
    + reflexivity.
Qed.

Lemma nth_error_enumerate {A} (l : list A) (i : nat) (a : A) :
  nth_error l i = Some a -> nth_error (enumerate l) i = Some (i, a).
Proof.
  intros H. unfold enumerate. apply nth_error_combine; [|exact H].
  assert (Hi : i < length l) by (apply nth_error_Some; congruence).
  rewrite (nth_error_nth' _ 0) by (rewrite length_seq; exact Hi).
  rewrite seq_nth by exact Hi. reflexivity.
Qed.

Lemma in_enumerate {A} (l : list A) (i : nat) (a : A) :
  In (i, a) (enumerate l) -> i < length l /\ In a l.
Proof.
  unfold enumerate. intros H. split.
  - apply in_combine_l in H. apply in_seq in H. lia.
  - apply in_combine_r in H. exact H.
Qed.

Lemma length_channel_values (t : tensor) (b c : nat) :
  length (channel_values t b c) = numel (inner_dims t).
Proof. unfold channel_values. rewrite length_map, length_seq. reflexivity. Qed.

Lemma rank2_no_inner (t : tensor) :
  2 <= ndim t -> (ndim t =? 2) = true <-> inner_dims t = [].
Proof.
  intros H. rewrite Nat.eqb_eq. unfold ndim.
  rewrite (shape_decompose t H) at 1. simpl. rewrite length_app. simpl.
  split.
  - intros E. apply length_zero_iff_nil. lia.
  - intros ->. reflexivity.
Qed.

Lemma reduce_mean_tail_rank1 (n : nat) (D : list Q) :
  reduce_mean_tail (mkTensor [n] D) = mkTensor [n] D.
Proof. reflexivity. Qed.

Lemma reduce_mean_tail_rank3 (n d : nat) (inner : list nat) (D : list Q) :
  reduce_mean_tail (mkTensor (n :: d :: inner) D) =
  mkTensor [n]
    (map (fun i => mean (map (fun p => nth (i * numel (d :: inner) + p) D 0%Q)
                             (seq 0 (numel (d :: inner)))))
         (seq 0 n)).
Proof. reflexivity. Qed.

Lemma CategoricalScore_call_general (self : CategoricalScore) (output : tensor) :
  wf output -> 2 <= ndim output ->
  1 <= batch_dim output ->
  length (indices self) = batch_dim output \/ length (indices self) = 1 ->
  (forall index, In index (indices self) ->
                 (- Z.of_nat (last_dim output) <= index < Z.of_nat (last_dim output))%Z) ->
  exists score,
    CategoricalScore_call self output = Ok score /\
    shape score = [batch_dim output] /\
    length (data score) = batch_dim output /\
    (forall i index,
        i < batch_dim output ->
        Spec.corresponding (indices self) i = Some index ->
        nth i (data score) 0%Q =
        if ndim output =? 2
        then at3 output 1 (last_dim output) i 0 (Spec.channel_of (last_dim output) index)
        else mean (channel_values output i (Spec.channel_of (last_dim output) index))).
Proof.
  intros Hwf Hrank Hbatch Hlen Hrange.
  set (K := last_dim output) in *. set (n := batch_dim output) in *.
  set (P := numel (inner_dims output)).
  set (g := fun ii : nat * Z =>
              mkTensor (inner_dims output)
                       (channel_values output (fst ii) (Spec.channel_of K (snd ii)))).
  unfold CategoricalScore_call.
  destruct (ndim output <? 2) eqn:E; [apply Nat.ltb_lt in E; lia|]. clear E.
  destruct (py_max_nonempty (indices self)) as [m Hm].
  { intros Hnil. rewrite Hnil in Hlen. simpl in Hlen. lia. }
  rewrite Hm. simpl bind.
  destruct (py_max_spec _ _ Hm) as [Hmin _].
  destruct (Z.of_nat (last_dim output) <=? m)%Z eqn:Ek.
  { apply Z.leb_le in Ek. specialize (Hrange m Hmin). fold K in Hrange. fold K in Ek. lia. }
  clear Ek. fold n.
  destruct (broadcast_indices (indices self) n Hbatch Hlen)
    as [paired [-> [Hplen [Hpin Hpnth]]]].
  rewrite (mapM_total _ g).
  2:{ intros [i index] Hin. apply in_enumerate in Hin. destruct Hin as [Hi Hin].
      simpl. apply subscript_Ok; [fold n; lia | apply Hrange, Hpin, Hin]. }
  simpl bind.
  assert (Hlg : length (map g (enumerate paired)) = n).
  { rewrite length_map. unfold enumerate.
    rewrite length_combine, length_seq. lia. }
  assert (Hstack : tf_stack (map g (enumerate paired)) =
                   Ok (mkTensor (n :: inner_dims output)
                                (concat (map data (map g (enumerate paired)))))).
  { destruct (map g (enumerate paired)) as [|t rest] eqn:El; [simpl in Hlg; lia|].
    unfold tf_stack. rewrite Hlg. do 3 f_equal.
    assert (Hin : In t (map g (enumerate paired))) by (rewrite El; left; reflexivity).
    apply in_map_iff in Hin. destruct Hin as [ii [<- _]]. reflexivity. }
  rewrite Hstack. simpl bind.
  set (D := concat (map data (map g (enumerate paired)))).
  assert (Hall : Forall (fun l => length l = P) (map data (map g (enumerate paired)))).
  { apply Forall_forall. intros l Hin. rewrite map_map in Hin.
    apply in_map_iff in Hin. destruct Hin as [ii [<- _]]. simpl.
    apply length_channel_values. }
  assert (Hrow : forall i index, i < n -> Spec.corresponding (indices self) i = Some index ->
                 nth i (map data (map g (enumerate paired))) [] =
                 channel_values output i (Spec.channel_of K index)).
  { intros i index Hi Hc. rewrite <- Hpnth in Hc by exact Hi.
    apply nth_error_enumerate in Hc.
    apply nth_error_nth. rewrite map_map.
    apply (map_nth_error (fun x => data (g x))) in Hc. exact Hc. }
  eexists. split; [reflexivity|].
  assert (Hcase : inner_dims output = [] \/
                  exists d inner, inner_dims output = d :: inner).
  { destruct (inner_dims output) as [|d inner]; eauto. }
  destruct Hcase as [Einner | [d [inner Einner]]]; rewrite Einner.
  - (* rank 2: nothing to reduce *)
    rewrite reduce_mean_tail_rank1. simpl. split; [reflexivity|].
    assert (HP : P = 1) by (unfold P; rewrite Einner; reflexivity).
    split.
    + unfold D. rewrite (length_concat_uniform _ P Hall).
      rewrite !length_map. unfold enumerate. rewrite length_combine, length_seq, HP. lia.
    + intros i index Hi Hc.
      assert (E2 : (ndim output =? 2) = true) by (apply rank2_no_inner; assumption).
      rewrite E2.
      transitivity (nth (i * P + 0) D 0%Q); [rewrite HP; f_equal; lia|].
      unfold D. rewrite (nth_concat_uniform _ P);
        [| exact Hall | rewrite length_map, Hlg; exact Hi | rewrite HP; lia].
      rewrite (Hrow i index Hi Hc). unfold channel_values.
      fold P. rewrite HP. reflexivity.
  - (* rank 3 or more: the mean over the inner positions *)
    assert (E2 : (ndim output =? 2) = false).
    { destruct (ndim output =? 2) eqn:E2; [|reflexivity].
      apply rank2_no_inner in E2; [congruence | assumption]. }
    rewrite E2, reduce_mean_tail_rank3. rewrite <- Einner. fold P. simpl.
    split; [reflexivity|]. split; [rewrite length_map, length_seq; reflexivity|].
    intros i index Hi Hc.
    rewrite nth_map_seq by exact Hi. f_equal.
    rewrite <- (Hrow i index Hi Hc).
    apply nth_ext with (d := 0%Q) (d' := 0%Q).
    + rewrite length_map, length_seq.
      rewrite (Hrow i index Hi Hc). symmetry. apply length_channel_values.
    + intros p Hp. rewrite length_map, length_seq in Hp.
      rewrite nth_map_seq by exact Hp. unfold D.
      apply nth_concat_uniform; [exact Hall | rewrite length_map, Hlg; exact Hi | exact Hp].
Qed.

(** C3, as the code has it.  On a non-empty batch of rank 2 or more, with
    one configured index or one per batch element, each index [index] with
    [-K <= index < K] for the [K] channels (a negative index counts from the
    last channel), [CategoricalScore.__call__] returns a tensor of shape
    [(batch,)] whose entry [i] is the mean of [output[i, ..., index]] over
    the inner positions, for the index corresponding to [i]; on an output of
    rank 2 it is [output[i, index]] itself.  For one index [index] and an
    output of shape [(1, K)] the result is [[output[0, index]]]. *)
Theorem CategoricalScore_call_values :
  (forall (self : CategoricalScore) (output : tensor),
      wf output -> 2 <= ndim output ->
      1 <= batch_dim output ->
      length (indices self) = batch_dim output \/ length (indices self) = 1 ->
      (forall index, In index (indices self) ->
         (- Z.of_nat (last_dim output) <= index < Z.of_nat (last_dim output))%Z) ->
      exists score,
        CategoricalScore_call self output = Ok score /\
        shape score = [batch_dim output] /\
        length (data score) = batch_dim output /\
        (forall i index,
            i < batch_dim output ->
            Spec.corresponding (indices self) i = Some index ->
            nth i (data score) 0%Q =
            if ndim output =? 2
            then at3 output 1 (last_dim output) i 0
                     (Spec.channel_of (last_dim output) index)
            else mean (channel_values output i
                         (Spec.channel_of (last_dim output) index)))) /\
  (forall (output : tensor) (K : nat) (index : Z),
      wf output -> shape output = [1; K] -> (0 <= index < Z.of_nat K)%Z ->
      CategoricalScore_call (mkCategoricalScore [index]) output =
      Ok (mkTensor [1] [nth (Z.to_nat index) (data output) 0%Q])).
Proof.
  split; [exact CategoricalScore_call_general|].
  intros output K index Hwf Hshape Hidx.
  assert (Hb : batch_dim output = 1) by (unfold batch_dim; rewrite Hshape; reflexivity).
  assert (Hk : last_dim output = K) by (unfold last_dim; rewrite Hshape; reflexivity).
  assert (Hn : ndim output = 2) by (unfold ndim; rewrite Hshape; reflexivity).
  destruct (CategoricalScore_call_general (mkCategoricalScore [index]) output)
    as [score [Hcall [Hsh [Hlen Hval]]]].
  - exact Hwf.
  - lia.
  - lia.
  - right. reflexivity.
  - simpl. intros x [<- | []]. lia.
  - rewrite Hcall. f_equal.
    specialize (Hval 0 index). rewrite Hb in *. specialize (Hval (Nat.lt_0_1) eq_refl).
    rewrite Hn in Hval. simpl in Hval. rewrite Hk in Hval. unfold at3 in Hval. simpl in Hval.
    unfold Spec.channel_of in Hval. rewrite Z.mod_small in Hval by lia.
    destruct score as [sh dat]. simpl in *. subst sh.
    destruct dat as [|v [|w rest]]; simpl in Hlen; try lia.
    simpl in Hval. subst v. reflexivity.
Qed.

Lemma CategoricalScore_call_values_witness :
  (exists score,
      CategoricalScore_call (mkCategoricalScore [1%Z; (-1)%Z])
                            (mkTensor [2; 2; 2] [1; 2; 3; 4; 5; 6; 7; 8]%Q) = Ok score /\
      shape score = [2] /\
      nth 1 (data score) 0%Q = mean [6; 8]%Q) /\
  CategoricalScore_call (mkCategoricalScore [2%Z]) (mkTensor [1; 3] [1; 2; 3]%Q)
  = Ok (mkTensor [1] [3%Q]).
Proof.
  split.
  - destruct (proj1 CategoricalScore_call_values
                (mkCategoricalScore [1%Z; (-1)%Z])
                (mkTensor [2; 2; 2] [1; 2; 3; 4; 5; 6; 7; 8]%Q))
      as [score [Hcall [Hsh [_ Hval]]]].
    + reflexivity.
    + unfold ndim; simpl; lia.
    + unfold batch_dim; simpl; lia.
    + left. reflexivity.
    + unfold last_dim; simpl. intros index [<- | [<- | []]]; lia.
    + exists score. split; [exact Hcall|]. split; [exact Hsh|].
      apply (Hval 1 (-1)%Z); [unfold batch_dim; simpl; lia | reflexivity].
  - apply (proj2 CategoricalScore_call_values (mkTensor [1; 3] [1; 2; 3]%Q) 3 2%Z).
    + reflexivity.
    + reflexivity.
    + lia.
Defined.

(** C3, as it is stated, fails in two ways.  Two indices on a batch of
    three give a result of shape [(2,)], not [(batch,)]; and the index -5 is
    exceeded by the channel count 3, yet the subscript is outside the
    channel axis and the call raises. *)
Lemma result_follows_indices_not_batch :
  (let self := mkCategoricalScore [0%Z; 1%Z] in
   let output := mkTensor [3; 2] [1; 2; 3; 4; 5; 6]%Q in
   2 <= ndim output /\
   (forall index, In index (indices self) -> (index < Z.of_nat (last_dim output))%Z) /\
   batch_dim output = 3 /\
   CategoricalScore_call self output = Ok (mkTensor [2] [1; 4]%Q)) /\
  (let self := mkCategoricalScore [(-5)%Z] in
   let output := mkTensor [1; 3] [1; 2; 3]%Q in
   2 <= ndim output /\
   (forall index, In index (indices self) -> (index < Z.of_nat (last_dim output))%Z) /\
   CategoricalScore_call self output = Raise IndexError).
Proof.
  split; unfold ndim, last_dim, batch_dim; simpl.
  - split; [lia|]. split; [|split; reflexivity].
    intros index [<- | [<- | []]]; lia.
  - split; [lia|]. split; [|reflexivity].
    intros index [<- | []]; lia.
Qed.

End ScoresFacts.

(* ================================================================== *)
(** * Facts about scorecam.py *)

Module ScorecamFacts.

Import Scorecam.

(** ** Positions of a buffer *)


Lemma position_batch (P K b p c : nat) :
  p < P -> c < K -> ((b * P + p) * K + c) / (P * K) = b.
Proof.
  intros Hp Hc.
  replace ((b * P + p) * K + c) with (b * (P * K) + (p * K + c)) by ring.
  assert (H0 : P * K <> 0) by (destruct P, K; simpl; lia).
  assert (H1 : p * K + c < P * K).
  { apply Nat.lt_le_trans with (p * K + K); [lia|].
    replace (p * K + K) with (S p * K) by (simpl; lia).
    apply Nat.mul_le_mono_r. lia. }
  rewrite Nat.div_add_l by exact H0. rewrite Nat.div_small by exact H1. lia.
Qed.

Lemma position_channel (P K b p c : nat) :
  c < K -> ((b * P + p) * K + c) mod K = c.
Proof.
  intros Hc. rewrite Nat.add_comm, Nat.Div0.mod_add. apply Nat.mod_small. exact Hc.
Qed.

Lemma position_bound (B P K b p c : nat) :
  b < B -> p < P -> c < K -> (b * P + p) * K + c < B * (P * K).
Proof.
  intros Hb Hp Hc.
  apply Nat.lt_le_trans with ((b * P + p) * K + K); [lia|].
  replace ((b * P + p) * K + K) with (S (b * P + p) * K) by (simpl; lia).
  rewrite Nat.mul_assoc. apply Nat.mul_le_mono_r.
  apply Nat.le_trans with (b * P + P); [lia|].
  replace (b * P + P) with (S b * P) by (simpl; lia).
  apply Nat.mul_le_mono_r. lia.
Qed.

Lemma in_channel_values (t : tensor) (b p c : nat) :
  p < numel (inner_dims t) ->
  In (at3 t (numel (inner_dims t)) (last_dim t) b p c) (channel_values t b c).
Proof.
  intros Hp. unfold channel_values.
  apply in_map_iff. exists p. split; [reflexivity | apply in_seq; lia].
Qed.

(** ** Minimum and maximum of a list *)

Lemma fold_min_le (l : list Q) (a : Q) :
  (fold_left Qmin l a <= a)%Q /\ (forall x, In x l -> (fold_left Qmin l a <= x)%Q).
Proof.
  revert a. induction l as [|y l IH]; intros a; simpl.
  - split; [apply Qle_refl | intros x []].
  - destruct (IH (Qmin a y)) as [H1 H2]. split.
    + eapply Qle_trans; [exact H1 | apply Q.le_min_l].
    + intros x [<- | Hx].
      * eapply Qle_trans; [exact H1 | apply Q.le_min_r].
      * apply H2. exact Hx.
Qed.

Lemma fold_max_ge (l : list Q) (a : Q) :
  (a <= fold_left Qmax l a)%Q /\ (forall x, In x l -> (x <= fold_left Qmax l a)%Q).
Proof.
  revert a. induction l as [|y l IH]; intros a; simpl.
  - split; [apply Qle_refl | intros x []].
  - destruct (IH (Qmax a y)) as [H1 H2]. split.
    + eapply Qle_trans; [apply Q.le_max_l | exact H1].
    + intros x [<- | Hx].
      * eapply Qle_trans; [apply Q.le_max_r | exact H1].
      * apply H2. exact Hx.
Qed.

Lemma list_min_le (l : list Q) (x : Q) : In x l -> (list_min l <= x)%Q.
Proof.
  destruct l as [|a l]; simpl; [intros []|].
  intros [<- | Hx].
  - apply (proj1 (fold_min_le l a)).
  - apply (proj2 (fold_min_le l a)). exact Hx.
Qed.

Lemma list_max_ge (l : list Q) (x : Q) : In x l -> (x <= list_max l)%Q.
Proof.
  destruct l as [|a l]; simpl; [intros []|].
  intros [<- | Hx].
  - apply (proj1 (fold_max_ge l a)).
  - apply (proj2 (fold_max_ge l a)). exact Hx.
Qed.


(** ** The normalization step *)



Lemma normalize_Ok (h : host) (a : tensor) :
  2 <= ndim a -> numel (inner_dims a) <> 0 ->
  normalize h a =
  Ok (mkTensor (shape a)
        (map (fun j =>
                let b := j / (numel (inner_dims a) * last_dim a) in
                let c := j mod last_dim a in
                ((nth j (data a) 0 - list_min (channel_values a b c)) /
                 (list_max (channel_values a b c) - list_min (channel_values a b c)
                  + epsilon h))%Q)
             (seq 0 (length (data a))))).
Proof.
  intros Hr HP. unfold normalize.
  destruct (ndim a <? 2) eqn:E; [apply Nat.ltb_lt in E; lia|].
  destruct (numel (inner_dims a) =? 0) eqn:E0; [apply Nat.eqb_eq in E0; lia|].
  reflexivity.
Qed.

(** The normalized value at batch element [b], inner position [p] and
    channel [c]. *)
Lemma normalize_at3 (h : host) (a n : tensor) (b p c : nat) :
  wf a -> 2 <= ndim a -> normalize h a = Ok n ->
  b < batch_dim a -> p < numel (inner_dims a) -> c < last_dim a ->
  let P := numel (inner_dims a) in
  let K := last_dim a in
  at3 n P K b p c =
  ((at3 a P K b p c - list_min (channel_values a b c)) /
   (list_max (channel_values a b c) - list_min (channel_values a b c) + epsilon h))%Q.
Proof.
  intros Hwf Hr Hn Hb Hp Hc P K.
  rewrite normalize_Ok in Hn by (try assumption; lia).
  inversion Hn; subst n; clear Hn. unfold at3 at 1. simpl data.
  rewrite nth_map_seq.
  - fold P K. rewrite position_batch, position_channel by assumption. reflexivity.
  - rewrite (wf_length a Hwf Hr). apply position_bound; assumption.
Qed.


Lemma normalize_low_rank (h : host) (a : tensor) :
  ndim a < 2 ->
  normalize h a =
  Ok (mkTensor (shape a) (map (fun v => ((v - v) / (v - v + epsilon h))%Q) (data a))).
Proof.
  intros Hr. unfold normalize.
  destruct (ndim a <? 2) eqn:E; [reflexivity | apply Nat.ltb_ge in E; lia].
Qed.

Lemma normalize_Raise (h : host) (a : tensor) (e : exn) :
  normalize h a = Raise e -> 2 <= ndim a /\ numel (inner_dims a) = 0.
Proof.
  unfold normalize. destruct (ndim a <? 2) eqn:E; [discriminate|].
  apply Nat.ltb_ge in E.
  destruct (numel (inner_dims a) =? 0) eqn:E0; [|discriminate].
  apply Nat.eqb_eq in E0. auto.
Qed.



(** ** Sorting by decreasing value *)

Lemma before_pair_trans (a b c : Q * nat) :
  Spec.before_pair a b -> Spec.before_pair b c -> Spec.before_pair a c.
Proof.
  unfold Spec.before_pair. intros [H1 | [H1 H1']] [H2 | [H2 H2']].
  - left. eapply Qlt_trans; eassumption.
  - left. rewrite <- H2. exact H1.
  - left. rewrite H1. exact H2.
  - right. split; [rewrite H1; exact H2 | lia].
Qed.

Lemma insert_desc_perm (x : Q * nat) (l : list (Q * nat)) :
  Permutation (insert_desc x l) (x :: l).
Proof.
  induction l as [|y l IH]; simpl.
  - apply Permutation_refl.
  - destruct (Qle_bool (fst y) (fst x)).
    + apply Permutation_refl.
    + eapply Permutation_trans; [apply perm_skip, IH | apply perm_swap].
Qed.

Lemma sort_desc_perm (l : list (Q * nat)) : Permutation (sort_desc l) l.
Proof.
  induction l as [|x l IH]; simpl.
  - apply Permutation_refl.
  - eapply Permutation_trans; [apply insert_desc_perm | apply perm_skip, IH].
Qed.

Lemma insert_desc_sorted (x : Q * nat) (l : list (Q * nat)) :
  StronglySorted Spec.before_pair l ->
  Forall (fun y => snd x < snd y) l ->
  StronglySorted Spec.before_pair (insert_desc x l).
Proof.
  intros Hs Hlt. induction Hs as [|y l Hs IH Hy]; simpl.
  - constructor; constructor.
  - inversion Hlt as [|? ? Hxy Hlt']; subst.
    destruct (Qle_bool (fst y) (fst x)) eqn:E.
    + apply Qle_bool_iff in E.
      assert (Hbxy : Spec.before_pair x y).
      { destruct (Qle_lt_or_eq _ _ E) as [H | H].
        - left. exact H.
        - right. split; [symmetry; exact H | exact Hxy]. }
      constructor; [constructor; assumption|].
      constructor; [exact Hbxy|].
      eapply Forall_impl; [|exact Hy].
      intros z Hz. eapply before_pair_trans; eassumption.
    + assert (Hbyx : Spec.before_pair y x).
      { left. apply Qnot_le_lt. intros H. apply Qle_bool_iff in H. congruence. }
      constructor; [apply IH; exact Hlt'|].
      eapply Permutation_Forall; [apply Permutation_sym, insert_desc_perm|].
      constructor; assumption.
Qed.

Lemma sort_desc_sorted (l : list (Q * nat)) :
  StronglySorted (fun a b => snd a < snd b) l ->
  StronglySorted Spec.before_pair (sort_desc l).
Proof.
  induction 1 as [|x l Hs IH Hx]; simpl.
  - constructor.
  - apply insert_desc_sorted; [exact IH|].
    eapply Permutation_Forall; [apply Permutation_sym, sort_desc_perm | exact Hx].
Qed.

Lemma combine_seq_increasing (values : list Q) (s : nat) :
  StronglySorted (fun a b : Q * nat => snd a < snd b)
                 (combine values (seq s (length values))).
Proof.
  revert s. induction values as [|v values IH]; intros s; simpl.
  - constructor.
  - constructor; [apply IH|].
    apply Forall_forall. intros [w i] Hin. apply in_combine_r in Hin.
    apply in_seq in Hin. simpl. lia.
Qed.

Lemma combine_seq_entries (values : list Q) (a : Q * nat) :
  In a (combine values (seq 0 (length values))) ->
  snd a < length values /\ fst a = nth (snd a) values 0%Q.
Proof.
  intros Hin. apply (In_nth _ _ (0%Q, 0)) in Hin.
  destruct Hin as [i [Hi Ha]]. rewrite length_combine, length_seq, Nat.min_id in Hi.
  rewrite combine_nth in Ha by (rewrite length_seq; reflexivity).
  rewrite seq_nth in Ha by exact Hi. subst a. simpl. auto.
Qed.

Lemma map_snd_combine_seq (values : list Q) (s : nat) :
  map snd (combine values (seq s (length values))) = seq s (length values).
Proof.
  revert s. induction values as [|v values IH]; intros s; simpl.
  - reflexivity.
  - rewrite IH. reflexivity.
Qed.

Lemma StronglySorted_map {A B} (R : A -> A -> Prop) (S : B -> B -> Prop)
    (f : A -> B) (l : list A) :
  (forall a b, In a l -> In b l -> R a b -> S (f a) (f b)) ->
  StronglySorted R l -> StronglySorted S (map f l).
Proof.
  intros Hf Hs. induction Hs as [|a l Hs IH Ha]; simpl.
  - constructor.
  - constructor.
    + apply IH. intros x y Hx Hy. apply Hf; right; assumption.
    + apply Forall_forall. intros y Hy. apply in_map_iff in Hy.
      destruct Hy as [b [<- Hb]]. apply Hf; [left; reflexivity | right; exact Hb|].
      rewrite Forall_forall in Ha. apply Ha. exact Hb.
Qed.

Lemma StronglySorted_app {A} (R : A -> A -> Prop) (l1 l2 : list A) :
  StronglySorted R (l1 ++ l2) ->
  StronglySorted R l1 /\ (forall a b, In a l1 -> In b l2 -> R a b).
Proof.
  induction l1 as [|x l1 IH]; simpl; intros Hs.
  - split; [constructor | intros a b []].
  - apply StronglySorted_inv in Hs. destruct Hs as [Hs Hx].
    destruct (IH Hs) as [Hs1 Hcross]. rewrite Forall_forall in Hx. split.
    + constructor; [exact Hs1|]. apply Forall_forall. intros y Hy.
      apply Hx. apply in_or_app. left. exact Hy.
    + intros a b [<- | Ha] Hb.
      * apply Hx. apply in_or_app. right. exact Hb.
      * apply Hcross; assumption.
Qed.

Lemma in_firstn {A} (n : nat) (l : list A) (x : A) : In x (firstn n l) -> In x l.
Proof.
  intros H. rewrite <- (firstn_skipn n l). apply in_or_app. left. exact H.
Qed.

(** [tf.math.top_k] on a row returns the positions the specification asks
    for. *)
Lemma top_k_spec (values : list Q) (k : Z) :
  (0 <= k <= Z.of_nat (length values))%Z ->
  exists sel, top_k values k = Ok sel /\ Spec.is_top_k values (Z.to_nat k) sel.
Proof.
  intros Hk. unfold top_k.
  destruct ((k <? 0)%Z || (Z.of_nat (length values) <? k)%Z) eqn:E.
  { apply orb_prop in E. destruct E as [E | E]; apply Z.ltb_lt in E; lia. }
  clear E. eexists. split; [reflexivity|].
  set (pairs := combine values (seq 0 (length values))).
  set (sorted := sort_desc pairs).
  assert (Hperm : Permutation sorted pairs) by apply sort_desc_perm.
  assert (Hsorted : StronglySorted Spec.before_pair sorted)
    by apply sort_desc_sorted, combine_seq_increasing.
  assert (Hentries : forall a, In a sorted ->
                     snd a < length values /\ fst a = nth (snd a) values 0%Q).
  { intros a Ha. apply combine_seq_entries. eapply Permutation_in; eassumption. }
  assert (Hpos : Permutation (map snd sorted) (seq 0 (length values))).
  { unfold pairs in Hperm. rewrite <- (map_snd_combine_seq values 0).
    apply Permutation_map. exact Hperm. }
  assert (Hss : StronglySorted (Spec.before values) (map snd sorted)).
  { eapply StronglySorted_map; [|exact Hsorted].
    intros a b Ha Hb Hab. destruct (Hentries a Ha) as [_ Ea].
    destruct (Hentries b Hb) as [_ Eb].
    unfold Spec.before. rewrite <- Ea, <- Eb. exact Hab. }
  rewrite <- (firstn_skipn (Z.to_nat k) (map snd sorted)) in Hss.
  apply StronglySorted_app in Hss. destruct Hss as [Hfirst Hcross].
  unfold Spec.is_top_k. split; [|split; [|split]].
  - rewrite length_firstn, (Permutation_length Hpos), length_seq. lia.
  - intros i Hi. apply in_firstn in Hi.
    apply (Permutation_in _ Hpos) in Hi. apply in_seq in Hi. lia.
  - exact Hfirst.
  - intros i j Hi Hj Hnot. apply Hcross; [exact Hi|].
    assert (Hin : In j (map snd sorted)).
    { apply (Permutation_in _ (Permutation_sym Hpos)). apply in_seq. lia. }
    rewrite <- (firstn_skipn (Z.to_nat k) (map snd sorted)) in Hin.
    apply in_app_or in Hin. destruct Hin as [Hin | Hin]; [contradiction | exact Hin].
Qed.

(** ** Deduplication *)

Lemma unique_In (l : list nat) (x : nat) : In x (unique l) <-> In x l.
Proof.
  induction l as [|y l IH]; simpl; [tauto|].
  rewrite filter_In, IH. split.
  - intros [H | [H _]]; auto.
  - intros [H | H]; [auto|].
    destruct (Nat.eq_dec y x) as [E | E]; [auto|].
    right. split; [exact H|]. apply negb_true_iff, Nat.eqb_neq. congruence.
Qed.

Lemma unique_NoDup (l : list nat) : NoDup (unique l).
Proof.
  induction l as [|y l IH]; simpl; constructor.
  - rewrite filter_In. intros [_ H]. rewrite Nat.eqb_refl in H. discriminate.
  - apply NoDup_filter. exact IH.
Qed.

(** ** Gathering channels *)

Lemma removelast_shape (t : tensor) :
  2 <= ndim t -> removelast (shape t) = batch_dim t :: inner_dims t.
Proof.
  intros Hr. rewrite (shape_decompose t Hr) at 1.
  change (batch_dim t :: inner_dims t ++ [last_dim t])
    with ((batch_dim t :: inner_dims t) ++ [last_dim t]).
  apply removelast_last.
Qed.

Lemma gather_shape (t : tensor) (idx : list nat) :
  2 <= ndim t ->
  shape (gather_last t idx) = batch_dim t :: inner_dims t ++ [length idx].
Proof.
  intros Hr. unfold gather_last. simpl. rewrite (removelast_shape t Hr). reflexivity.
Qed.

Lemma gather_dims (t : tensor) (idx : list nat) :
  2 <= ndim t ->
  batch_dim (gather_last t idx) = batch_dim t /\
  inner_dims (gather_last t idx) = inner_dims t /\
  last_dim (gather_last t idx) = length idx /\
  ndim (gather_last t idx) = ndim t.
Proof.
  intros Hr. pose proof (gather_shape t idx Hr) as Hs.
  unfold batch_dim at 1, inner_dims at 1, last_dim at 1, ndim at 1. rewrite Hs.
  split; [reflexivity|]. split; [|split].
  - simpl tl. apply removelast_last.
  - change (batch_dim t :: inner_dims t ++ [length idx])
      with ((batch_dim t :: inner_dims t) ++ [length idx]).
    apply last_last.
  - unfold ndim. rewrite (shape_decompose t Hr). simpl.
    rewrite !length_app. reflexivity.
Qed.

Lemma gather_wf (t : tensor) (idx : list nat) :
  2 <= ndim t -> wf (gather_last t idx).
Proof.
  intros Hr. unfold wf. rewrite (gather_shape t idx Hr).
  unfold gather_last. simpl data.
  rewrite (length_flat_map_uniform _ _ (length idx))
    by (intros r; apply length_map).
  rewrite (removelast_shape t Hr). simpl. rewrite numel_app. simpl. lia.
Qed.

Lemma nth_map_in {A B} (f : A -> B) (l : list A) (j : nat) (d : B) (d' : A) :
  j < length l -> nth j (map f l) d = f (nth j l d').
Proof.
  intros Hj. rewrite (nth_indep _ d (f d')) by (rewrite length_map; exact Hj).
  apply map_nth.
Qed.


(** ** The channel selection *)

Lemma mapM_Forall2 {A B} (f : A -> result B) (R : A -> B -> Prop) (l : list A) :
  (forall a, In a l -> exists b, f a = Ok b /\ R a b) ->
  exists bs, mapM f l = Ok bs /\ Forall2 R l bs.
Proof.
  induction l as [|a l IH]; intros H; simpl.
  - exists []. split; [reflexivity | constructor].
  - destruct (H a (or_introl eq_refl)) as [b [Hb HR]].
    destruct IH as [bs [Hbs HF]]; [intros x Hx; apply H; right; exact Hx|].
    exists (b :: bs). rewrite Hb, Hbs. split; [reflexivity | constructor; assumption].
Qed.

Lemma Forall2_in_r {A B} (R : A -> B -> Prop) (l : list A) (l' : list B) (b : B) :
  Forall2 R l l' -> In b l' -> exists a, In a l /\ R a b.
Proof.
  induction 1 as [|x y l l' Hxy HF IH]; intros Hin.
  - destruct Hin.
  - destruct Hin as [<- | Hin].
    + exists x. split; [left; reflexivity | exact Hxy].
    + destruct (IH Hin) as [a [Ha HR]]. exists a. split; [right; exact Ha | exact HR].
Qed.

Lemma activation_map_std_rows (h : host) (t : tensor) :
  length (activation_map_std h t) = batch_dim t /\
  (forall row, In row (activation_map_std h t) -> length row = last_dim t) /\
  (forall b c, b < batch_dim t -> c < last_dim t ->
     nth c (nth b (activation_map_std h t) []) 0%Q = reduce_std h (channel_values t b c)).
Proof.
  unfold activation_map_std. split; [|split].
  - rewrite length_map, length_seq. reflexivity.
  - intros row Hin. apply in_map_iff in Hin. destruct Hin as [b [<- _]].
    rewrite length_map, length_seq. reflexivity.
  - intros b c Hb Hc. rewrite nth_map_seq by exact Hb.
    rewrite nth_map_seq by exact Hc. reflexivity.
Qed.

Lemma top_k_indices_spec (h : host) (t : tensor) (max_N : Z) :
  (0 <= max_N <= Z.of_nat (last_dim t))%Z ->
  exists sels,
    Forall2 (fun row sel => Spec.is_top_k row (Z.to_nat max_N) sel)
            (activation_map_std h t) sels /\
    top_k_indices h t max_N = Ok (unique (concat sels)).
Proof.
  intros Hk. unfold top_k_indices.
  destruct (mapM_Forall2 (fun row => top_k row max_N)
              (fun row sel => Spec.is_top_k row (Z.to_nat max_N) sel)
              (activation_map_std h t)) as [sels [Hsels HF]].
  - intros row Hin. apply top_k_spec.
    rewrite (proj1 (proj2 (activation_map_std_rows h t)) row Hin). exact Hk.
  - exists sels. split; [exact HF|]. rewrite Hsels. reflexivity.
Qed.



(** A negative cap is below every channel count and is handed to
    [tf.math.top_k], which refuses it. *)
Lemma select_channels_negative_cap (h : host) (penultimate_output : tensor) (max_N : Z) :
  shape penultimate_output <> [] -> 1 <= batch_dim penultimate_output ->
  (max_N < 0)%Z ->
  select_channels h penultimate_output max_N = Raise InvalidArgumentError.
Proof.
  intros Hs Hb Hneg. unfold select_channels, shape_last.
  destruct (shape penultimate_output) as [|d sh] eqn:E; [congruence|]. simpl.
  destruct (max_N <? Z.of_nat (last_dim penultimate_output))%Z eqn:El;
    [|apply Z.ltb_ge in El; lia].
  unfold top_k_indices, activation_map_std.
  destruct (batch_dim penultimate_output) as [|n]; [lia|]. simpl.
  unfold top_k at 1.
  destruct (max_N <? 0)%Z eqn:E0; [reflexivity | apply Z.ltb_ge in E0; lia].
Qed.

(** With more than one batch element the pooled positions can be more than
    [max_N]: here each of two samples contributes its own best channel. *)
Example pooled_selection :
  top_k_indices Sample.sample_host Sample.two_samples 1 = Ok [0; 2].
Proof. reflexivity. Qed.

(** ** The engine as a whole *)







(** C2, as the code has it.  With [max_N = 0] the engine prepares the
    scores and the seed inputs and runs the extracted model on them; if one
    of these raises, that error reaches the caller; otherwise the
    invalid-argument error for [max_N] is raised, before the cap helper, any
    resizing, the masked forward pass or any score is called.  With
    [max_N = None] and [max_N = -1] the engine does the same calls and
    returns the same result. *)
Theorem max_N_zero_and_default (h : host) (score : pyarg Score)
    (seed_input : pyarg tensor) (activation_modifier : option (tensor -> result tensor))
    (batch_size : nat) (expand_cam standardize_cam : bool) :
  run (Scorecam_call h score seed_input activation_modifier batch_size (Some 0%Z)
                     expand_cam standardize_cam)
  = match get_scores_for_multiple_outputs h score with
    | Raise e => ([PrepareScores], Raise e)
    | Ok _ =>
        match get_seed_inputs_for_multiple_inputs h seed_input with
        | Raise e => ([PrepareScores; PrepareSeedInputs], Raise e)
        | Ok seed_inputs =>
            match penultimate_model h seed_inputs with
            | Raise e => ([PrepareScores; PrepareSeedInputs; PenultimateForward], Raise e)
            | Ok _ => ([PrepareScores; PrepareSeedInputs; PenultimateForward],
                       Raise (ValueError MaxNZero))
            end
        end
    end /\
  invalid_argument (ValueError MaxNZero) = true /\
  run (Scorecam_call h score seed_input activation_modifier batch_size None
                     expand_cam standardize_cam)
  = run (Scorecam_call h score seed_input activation_modifier batch_size (Some (-1)%Z)
                       expand_cam standardize_cam).
Proof.
  split; [|split; reflexivity].
  unfold run, Scorecam_call, mbind, call.
  destruct (get_scores_for_multiple_outputs h score) as [scores|e]; [|reflexivity].
  destruct (get_seed_inputs_for_multiple_inputs h seed_input) as [seeds|e]; [|reflexivity].
  simpl. destruct (penultimate_model h seeds) as [po|e]; reflexivity.
Qed.

(** C2, as it is stated, fails: the error for [max_N = 0] is raised after
    the forward pass of the extracted model, and when that pass (or the
    layer lookup behind it) raises, its error is the one the caller sees. *)
Lemma max_N_zero_after_forward_pass :
  run (Scorecam_call Sample.sample_host (PyValue Sample.first_class)
         (PyValue Sample.seed) (Some Sample.relu) 32 (Some 0%Z) true true)
  = ([PrepareScores; PrepareSeedInputs; PenultimateForward],
     Raise (ValueError MaxNZero)) /\
  run (Scorecam_call Sample.failing_host (PyValue Sample.first_class)
         (PyValue Sample.seed) (Some Sample.relu) 32 (Some 0%Z) true true)
  = ([PrepareScores; PrepareSeedInputs; PenultimateForward],
     Raise (CollaboratorError 0)) /\
  invalid_argument (CollaboratorError 0) = false.
Proof. repeat split. Qed.

(** ** Resizing to the inputs *)





(** The sample host meets what the theorem asks of the collaborators. *)





End ScorecamFacts.

(* ================================================================== *)
(** * Further facts about scores.py *)

Module ScoresMore.

Import Scores ScoresFacts.

(** ** BinaryScore.__call__ *)

Lemma binary_shape_ok_iff (output : tensor) :
  binary_shape_ok output = true <->
  exists B, shape output = [B] \/ shape output = [B; 1].
Proof.
  unfold binary_shape_ok, ndim. split.
  - destruct (shape output) as [|B [|one [|x rest]]]; simpl; try discriminate.
    + intros _. exists B. left. reflexivity.
    + rewrite Nat.eqb_eq. intros ->. exists B. right. reflexivity.
  - intros [B [-> | ->]]; reflexivity.
Qed.

(** X1.  [BinaryScore.__call__] returns on an output of shape [(batch,)] or
    [(batch, 1)], whatever the batch and the targets are, and raises the
    invalid-shape error on every other output; it raises nothing else. *)
Theorem BinaryScore_call_shape_error (self : BinaryScore) (output : tensor) :
  ((exists B, shape output = [B] \/ shape output = [B; 1]) ->
   exists score, BinaryScore_call self output = Ok score) /\
  (~ (exists B, shape output = [B] \/ shape output = [B; 1]) ->
   BinaryScore_call self output = Raise (ValueError OutputShape)) /\
  (forall e, BinaryScore_call self output = Raise e -> e = ValueError OutputShape).
Proof.
  split; [|split].
  - intros H. apply binary_shape_ok_iff in H.
    rewrite (BinaryScore_call_Ok _ _ H). eauto.
  - intros H. apply BinaryScore_call_Raise.
    destruct (binary_shape_ok output) eqn:E; [|reflexivity].
    apply binary_shape_ok_iff in E. contradiction.
  - intros e He. destruct (binary_shape_ok output) eqn:E.
    + rewrite (BinaryScore_call_Ok _ _ E) in He. discriminate.
    + rewrite (BinaryScore_call_Raise _ _ E) in He. congruence.
Qed.

Lemma BinaryScore_call_shape_error_witness :
  (exists score, BinaryScore_call (mkBinaryScore [true; false])
                                  (mkTensor [0] []) = Ok score) /\
  BinaryScore_call (mkBinaryScore [true])
                   (mkTensor [2; 2] [(1 # 2)%Q; (1 # 2)%Q; (1 # 4)%Q; (3 # 4)%Q])
  = Raise (ValueError OutputShape).
Proof.
  split.
  - apply (proj1 (BinaryScore_call_shape_error (mkBinaryScore [true; false])
                    (mkTensor [0] []))).
    exists 0. left. reflexivity.
  - apply (proj1 (proj2 (BinaryScore_call_shape_error (mkBinaryScore [true])
             (mkTensor [2; 2] [(1 # 2)%Q; (1 # 2)%Q; (1 # 4)%Q; (3 # 4)%Q])))).
    intros [B [H | H]]; discriminate.
Defined.

Lemma py_list_mul_map {A B} (f : A -> B) (l : list A) (n : nat) :
  py_list_mul (map f l) n = map f (py_list_mul l n).
Proof.
  unfold py_list_mul. induction n as [|n IH]; simpl.
  - reflexivity.
  - rewrite IH, map_app. reflexivity.
Qed.

Lemma paired_targets_negb (self : BinaryScore) (output : tensor) :
  paired_targets (mkBinaryScore (map negb (target_values self))) output
  = map negb (paired_targets self output).
Proof.
  unfold paired_targets. simpl target_values. rewrite length_map.
  destruct ((length (target_values self) =? 1) &&
            (length (target_values self) <? batch_dim (reshape_flat output))).
  - apply py_list_mul_map.
  - reflexivity.
Qed.

Lemma binary_value_complement (val : Q) (positive : bool) :
  (binary_value val positive + binary_value val (negb positive) == 1)%Q.
Proof. destruct positive; simpl; ring. Qed.

(** X2.  Negating every target value turns each score into its complement:
    the scores for the targets and for the negated targets are equally many
    and add up to one, entry by entry. *)
Theorem BinaryScore_call_complement (self : BinaryScore) (output : tensor) :
  binary_shape_ok output = true ->
  exists score score',
    BinaryScore_call self output = Ok score /\
    BinaryScore_call (mkBinaryScore (map negb (target_values self))) output = Ok score' /\
    Forall2 (fun a b => (a + b == 1)%Q) score score'.
Proof.
  intros Hshape. rewrite !(BinaryScore_call_Ok _ _ Hshape), paired_targets_negb.
  do 2 eexists. split; [reflexivity|]. split; [reflexivity|].
  generalize (paired_targets self output) as tv.
  induction (data output) as [|v d IH]; intros tv; simpl.
  - constructor.
  - destruct tv as [|t tv]; simpl; constructor.
    + apply binary_value_complement.
    + apply IH.
Qed.

Lemma BinaryScore_call_complement_witness :
  exists score score',
    BinaryScore_call (mkBinaryScore [true; false])
                     (mkTensor [2] [(3 # 10)%Q; (1 # 5)%Q]) = Ok score /\
    BinaryScore_call (mkBinaryScore [false; true])
                     (mkTensor [2] [(3 # 10)%Q; (1 # 5)%Q]) = Ok score' /\
    Forall2 (fun a b => (a + b == 1)%Q) score score'.
Proof.
  exact (BinaryScore_call_complement (mkBinaryScore [true; false])
           (mkTensor [2] [(3 # 10)%Q; (1 # 5)%Q]) eq_refl).
Defined.

(** X3.  On output values in the unit interval every score lies in the unit
    interval. *)
Theorem BinaryScore_call_unit_interval (self : BinaryScore) (output : tensor)
    (score : list Q) :
  (forall v, In v (data output) -> (0 <= v <= 1)%Q) ->
  BinaryScore_call self output = Ok score ->
  forall s, In s score -> (0 <= s <= 1)%Q.
Proof.
  intros Hunit Hcall s Hs.
  destruct (binary_shape_ok output) eqn:E.
  - rewrite (BinaryScore_call_Ok _ _ E) in Hcall. inversion Hcall; subst score.
    apply in_map_iff in Hs. destruct Hs as [[v t] [<- Hin]].
    apply in_combine_l in Hin. specialize (Hunit v Hin).
    destruct t; simpl; lra.
  - rewrite (BinaryScore_call_Raise _ _ E) in Hcall. discriminate.
Qed.

Lemma BinaryScore_call_unit_interval_witness : (0 <= 7 # 10 <= 1)%Q.
Proof.
  apply (BinaryScore_call_unit_interval (mkBinaryScore [false; true])
           (mkTensor [2] [(3 # 10)%Q; (1 # 5)%Q]) [(7 # 10)%Q; (1 # 5)%Q]).
  - intros v [<- | [<- | []]]; split; discriminate.
  - reflexivity.
  - left. reflexivity.
Defined.

(** X4.  One configured target value gives the scores that as many copies of
    it as there are batch elements give; and an output of shape [(batch, 1)]
    gives the scores that the same values in shape [(batch,)] give. *)
Theorem BinaryScore_call_broadcast (positive : bool) (self : BinaryScore)
    (B : nat) (values : list Q) :
  length values = B ->
  BinaryScore_call (mkBinaryScore [positive]) (mkTensor [B] values)
  = BinaryScore_call (mkBinaryScore (repeat positive B)) (mkTensor [B] values) /\
  BinaryScore_call self (mkTensor [B; 1] values)
  = BinaryScore_call self (mkTensor [B] values).
Proof.
  intros Hlen. split.
  - rewrite (single_target_score (mkBinaryScore [positive]) (mkTensor [B] values) positive);
      [| unfold wf; simpl; lia | reflexivity | reflexivity].
    rewrite BinaryScore_call_Ok by reflexivity. f_equal.
    unfold paired_targets. simpl target_values. rewrite repeat_length.
    change (batch_dim (reshape_flat (mkTensor [B] values))) with (B * 1).
    assert (Hp : (if (B =? 1) && (B <? B * 1)
                  then py_list_mul (repeat positive B) (B * 1)
                  else repeat positive B) = repeat positive B).
    { destruct ((B =? 1) && (B <? B * 1)) eqn:E; [|reflexivity].
      apply andb_prop in E. destruct E as [_ E]. apply Nat.ltb_lt in E. lia. }
    rewrite Hp. simpl data. rewrite combine_repeat by lia. now rewrite map_map.
  - rewrite !BinaryScore_call_Ok by reflexivity.
    unfold paired_targets, reshape_flat, batch_dim. simpl.
    replace (B * (1 * 1)) with (B * 1) by lia. reflexivity.
Qed.

Lemma BinaryScore_call_broadcast_witness :
  BinaryScore_call (mkBinaryScore [false]) (mkTensor [3] [(3 # 10)%Q; (1 # 2)%Q; 1%Q])
  = BinaryScore_call (mkBinaryScore [false; false; false])
                     (mkTensor [3] [(3 # 10)%Q; (1 # 2)%Q; 1%Q]).
Proof.
  exact (proj1 (BinaryScore_call_broadcast false (mkBinaryScore [false]) 3
                  [(3 # 10)%Q; (1 # 2)%Q; 1%Q] eq_refl)).
Defined.

(** ** CategoricalScore.__call__ *)

Lemma call_after_guards (self : CategoricalScore) (output : tensor) (m : Z) :
  2 <= ndim output -> py_max (indices self) = Ok m ->
  (m < Z.of_nat (last_dim output))%Z ->
  CategoricalScore_call self output =
  (score <- mapM (fun ii => subscript output (fst ii) (snd ii))
                 (enumerate (paired_indices self output)) ;;
   score <- tf_stack score ;;
   Ok (reduce_mean_tail score)).
Proof.
  intros Hr Hm Hk. unfold CategoricalScore_call, paired_indices.
  destruct (ndim output <? 2) eqn:E; [apply Nat.ltb_lt in E; lia|].
  rewrite Hm. simpl bind.
  destruct (Z.of_nat (last_dim output) <=? m)%Z eqn:Ek; [apply Z.leb_le in Ek; lia|].
  reflexivity.
Qed.

Lemma axis_index_Ok_inv (n : nat) (index : Z) (c : nat) :
  axis_index n index = Ok c -> (- Z.of_nat n <= index < Z.of_nat n)%Z.
Proof.
  unfold axis_index.
  destruct ((0 <=? index)%Z && (index <? Z.of_nat n)%Z) eqn:E1.
  - apply andb_prop in E1. destruct E1 as [E1 E2].
    apply Z.leb_le in E1. apply Z.ltb_lt in E2. lia.
  - destruct ((- Z.of_nat n <=? index)%Z && (index <? 0)%Z) eqn:E2; [|discriminate].
    apply andb_prop in E2. destruct E2 as [E2 E3].
    apply Z.leb_le in E2. apply Z.ltb_lt in E3. lia.
Qed.

Lemma subscript_Ok_inv (output : tensor) (i : nat) (index : Z) (t : tensor) :
  subscript output i index = Ok t ->
  i < batch_dim output /\
  (- Z.of_nat (last_dim output) <= index < Z.of_nat (last_dim output))%Z.
Proof.
  unfold subscript. destruct (batch_dim output <=? i) eqn:E; [discriminate|].
  apply Nat.leb_gt in E.
  destruct (axis_index (last_dim output) index) as [c|e] eqn:Ea; [|discriminate].
  intros _. split; [exact E | eapply axis_index_Ok_inv; exact Ea].
Qed.

Lemma paired_indices_In (self : CategoricalScore) (output : tensor) (index : Z) :
  In index (paired_indices self output) <-> In index (indices self).
Proof.
  unfold paired_indices.
  destruct ((length (indices self) =? 1) &&
            (length (indices self) <? batch_dim output)) eqn:E; [|tauto].
  apply andb_prop in E. destruct E as [E1 E2].
  apply Nat.eqb_eq in E1. apply Nat.ltb_lt in E2.
  destruct (indices self) as [|x [|y rest]]; simpl in E1; try lia.
  rewrite py_list_mul_single. split.
  - intros H. apply repeat_spec in H. left. auto.
  - intros [<- | []]. destruct (batch_dim output); [lia | left; reflexivity].
Qed.

Lemma paired_indices_nil (self : CategoricalScore) (output : tensor) :
  paired_indices self output = [] <-> indices self = [].
Proof.
  split; intros H.
  - destruct (indices self) as [|x l] eqn:E; [reflexivity|].
    assert (Hin : In x (paired_indices self output))
      by (apply paired_indices_In; rewrite E; left; reflexivity).
    rewrite H in Hin. destruct Hin.
  - unfold paired_indices. rewrite H. reflexivity.
Qed.

(** The score for the indices [enumerate] runs over, when each of them
    finds its batch element and its channel. *)
Lemma call_values_paired (self : CategoricalScore) (output : tensor) :
  2 <= ndim output ->
  indices self <> [] ->
  (forall index, In index (indices self) ->
                 (- Z.of_nat (last_dim output) <= index < Z.of_nat (last_dim output))%Z) ->
  length (paired_indices self output) <= batch_dim output ->
  exists score,
    CategoricalScore_call self output = Ok score /\
    shape score = [length (paired_indices self output)] /\
    length (data score) = length (paired_indices self output) /\
    (forall i index,
        nth_error (paired_indices self output) i = Some index ->
        nth i (data score) 0%Q =
        if ndim output =? 2
        then at3 output 1 (last_dim output) i 0 (Spec.channel_of (last_dim output) index)
        else mean (channel_values output i (Spec.channel_of (last_dim output) index))).
Proof.
  intros Hrank Hne Hrange Hlen.
  set (K := last_dim output) in *.
  set (P := numel (inner_dims output)).
  set (paired := paired_indices self output) in *.
  set (n := length paired) in *.
  set (g := fun ii : nat * Z =>
              mkTensor (inner_dims output)
                       (channel_values output (fst ii) (Spec.channel_of K (snd ii)))).
  destruct (py_max_nonempty (indices self) Hne) as [m Hm].
  destruct (py_max_spec _ _ Hm) as [Hmin _].
  rewrite (call_after_guards self output m Hrank Hm)
    by (specialize (Hrange m Hmin); fold K; lia).
  fold paired.
  rewrite (mapM_total _ g).
  2:{ intros [i index] Hin. apply in_enumerate in Hin. destruct Hin as [Hi Hin].
      simpl. apply subscript_Ok; [fold n in Hi; lia|].
      apply Hrange. apply (paired_indices_In self output). exact Hin. }
  simpl bind.
  assert (Hn : 1 <= n).
  { unfold n. destruct paired eqn:E; [|simpl; lia].
    apply paired_indices_nil in E. contradiction. }
  assert (Hlg : length (map g (enumerate paired)) = n).
  { rewrite length_map. unfold enumerate, n.
    rewrite length_combine, length_seq. lia. }
  assert (Hstack : tf_stack (map g (enumerate paired)) =
                   Ok (mkTensor (n :: inner_dims output)
                                (concat (map data (map g (enumerate paired)))))).
  { destruct (map g (enumerate paired)) as [|t rest] eqn:El; [simpl in Hlg; lia|].
    unfold tf_stack. rewrite Hlg. do 3 f_equal.
    assert (Hin : In t (map g (enumerate paired))) by (rewrite El; left; reflexivity).
    apply in_map_iff in Hin. destruct Hin as [ii [<- _]]. reflexivity. }
  rewrite Hstack. simpl bind.
  set (D := concat (map data (map g (enumerate paired)))).
  assert (Hall : Forall (fun l => length l = P) (map data (map g (enumerate paired)))).
  { apply Forall_forall. intros l Hin. rewrite map_map in Hin.
    apply in_map_iff in Hin. destruct Hin as [ii [<- _]]. simpl.
    apply length_channel_values. }
  assert (Hrow : forall i index, nth_error paired i = Some index ->
                 nth i (map data (map g (enumerate paired))) [] =
                 channel_values output i (Spec.channel_of K index)).
  { intros i index Hc. apply nth_error_enumerate in Hc.
    apply nth_error_nth. rewrite map_map.
    apply (map_nth_error (fun x => data (g x))) in Hc. exact Hc. }
  assert (Hlt : forall i index, nth_error paired i = Some index -> i < n).
  { intros i index Hc. apply nth_error_Some. congruence. }
  eexists. split; [reflexivity|].
  assert (Hcase : inner_dims output = [] \/
                  exists d inner, inner_dims output = d :: inner).
  { destruct (inner_dims output) as [|d inner]; eauto. }
  destruct Hcase as [Einner | [d [inner Einner]]]; rewrite Einner.
  - rewrite reduce_mean_tail_rank1. simpl. split; [reflexivity|].
    assert (HP : P = 1) by (unfold P; rewrite Einner; reflexivity).
    split.
    + unfold D. rewrite (length_concat_uniform _ P Hall).
      rewrite !length_map. unfold enumerate. rewrite length_combine, length_seq, HP.
      fold n. lia.
    + intros i index Hc.
      assert (E2 : (ndim output =? 2) = true) by (apply rank2_no_inner; assumption).
      rewrite E2.
      transitivity (nth (i * P + 0) D 0%Q); [rewrite HP; f_equal; lia|].
      unfold D. rewrite (nth_concat_uniform _ P);
        [| exact Hall | rewrite length_map, Hlg; eapply Hlt; exact Hc | rewrite HP; lia].
      rewrite (Hrow i index Hc). unfold channel_values.
      fold P. rewrite HP. reflexivity.
  - assert (E2 : (ndim output =? 2) = false).
    { destruct (ndim output =? 2) eqn:E2; [|reflexivity].
      apply rank2_no_inner in E2; [congruence | assumption]. }
    rewrite E2, reduce_mean_tail_rank3. rewrite <- Einner. fold P. simpl.
    split; [reflexivity|]. split; [rewrite length_map, length_seq; reflexivity|].
    intros i index Hc.
    rewrite nth_map_seq by (eapply Hlt; exact Hc). f_equal.
    rewrite <- (Hrow i index Hc).
    apply nth_ext with (d := 0%Q) (d' := 0%Q).
    + rewrite length_map, length_seq.
      rewrite (Hrow i index Hc). symmetry. apply length_channel_values.
    + intros p Hp. rewrite length_map, length_seq in Hp.
      rewrite nth_map_seq by exact Hp. unfold D.
      apply nth_concat_uniform;
        [exact Hall | rewrite length_map, Hlg; eapply Hlt; exact Hc | exact Hp].
Qed.

Lemma Forall2_in_l {A B} (R : A -> B -> Prop) (l : list A) (l' : list B) (a : A) :
  Forall2 R l l' -> In a l -> exists b, In b l' /\ R a b.
Proof.
  induction 1 as [|x y l l' Hxy HF IH]; intros Hin.
  - destruct Hin.
  - destruct Hin as [<- | Hin].
    + exists y. split; [left; reflexivity | exact Hxy].
    + destruct (IH Hin) as [b [Hb HR]]. exists b. split; [right; exact Hb | exact HR].
Qed.

Lemma mapM_subscript_Ok_inv (output : tensor) (paired : list Z) (sc : list tensor) :
  mapM (fun ii => subscript output (fst ii) (snd ii)) (enumerate paired) = Ok sc ->
  length paired <= batch_dim output /\
  (forall index, In index paired ->
     (- Z.of_nat (last_dim output) <= index < Z.of_nat (last_dim output))%Z).
Proof.
  intros H. apply mapM_Ok in H.
  assert (Hall : forall i index, nth_error paired i = Some index ->
                 i < batch_dim output /\
                 (- Z.of_nat (last_dim output) <= index < Z.of_nat (last_dim output))%Z).
  { intros i index Hn. apply nth_error_enumerate in Hn.
    apply nth_error_In in Hn.
    destruct (Forall2_in_l _ _ _ _ H Hn) as [t [_ Ht]].
    simpl in Ht. eapply subscript_Ok_inv. exact Ht. }
  split.
  - destruct paired as [|x rest] eqn:E; [simpl; lia|]. rewrite <- E in *.
    assert (Hl : length paired - 1 < length paired) by (rewrite E; simpl; lia).
    apply nth_error_Some in Hl.
    destruct (nth_error paired (length paired - 1)) as [index|] eqn:En; [|congruence].
    destruct (Hall _ _ En) as [Hb _]. lia.
  - intros index Hin. apply In_nth_error in Hin. destruct Hin as [i Hi].
    eapply Hall. exact Hi.
Qed.

Lemma paired_indices_length (self : CategoricalScore) (output : tensor) :
  length (paired_indices self output) <= batch_dim output <->
  length (indices self) <= batch_dim output.
Proof.
  unfold paired_indices.
  destruct ((length (indices self) =? 1) &&
            (length (indices self) <? batch_dim output)) eqn:E; [|tauto].
  apply andb_prop in E. destruct E as [E1 E2].
  apply Nat.eqb_eq in E1. apply Nat.ltb_lt in E2.
  destruct (indices self) as [|x [|y rest]]; simpl in E1; try lia.
  rewrite py_list_mul_single, repeat_length. simpl. lia.
Qed.

Lemma paired_indices_several (self : CategoricalScore) (output : tensor) :
  1 < length (indices self) -> paired_indices self output = indices self.
Proof.
  intros H. unfold paired_indices.
  destruct (length (indices self) =? 1) eqn:E; [apply Nat.eqb_eq in E; lia | reflexivity].
Qed.

Lemma call_returns (self : CategoricalScore) (output : tensor) :
  ((exists score, CategoricalScore_call self output = Ok score) <->
   2 <= ndim output /\
   indices self <> [] /\
   (forall index, In index (indices self) ->
      (- Z.of_nat (last_dim output) <= index < Z.of_nat (last_dim output))%Z) /\
   length (indices self) <= batch_dim output) /\
  (2 <= ndim output -> indices self <> [] ->
   (forall index, In index (indices self) -> (index < Z.of_nat (last_dim output))%Z) ->
   batch_dim output < length (indices self) \/
   (exists index, In index (indices self) /\ (index < - Z.of_nat (last_dim output))%Z) ->
   CategoricalScore_call self output = Raise IndexError).
Proof.
  assert (Hinv : forall score, CategoricalScore_call self output = Ok score ->
            2 <= ndim output /\ indices self <> [] /\
            (forall index, In index (indices self) ->
               (- Z.of_nat (last_dim output) <= index < Z.of_nat (last_dim output))%Z) /\
            length (indices self) <= batch_dim output).
  { intros score H.
    assert (Hr : 2 <= ndim output).
    { destruct (Nat.lt_ge_cases (ndim output) 2) as [Hlt | Hge]; [|exact Hge].
      apply (proj2 (call_shape_error self output)) in Hlt. rewrite Hlt in H.
      discriminate. }
    destruct (py_max (indices self)) as [m|e] eqn:Em.
    2:{ unfold CategoricalScore_call in H.
        destruct (ndim output <? 2); [discriminate|]. rewrite Em in H. discriminate. }
    assert (Hk : (m < Z.of_nat (last_dim output))%Z).
    { destruct (Z.lt_ge_cases m (Z.of_nat (last_dim output))) as [Hlt | Hge]; [exact Hlt|].
      assert (Hraise : CategoricalScore_call self output
                       = Raise (ValueError InvalidIndexValue)).
      { apply call_index_error. split; [exact Hr|]. exists m.
        split; [apply (py_max_spec _ _ Em) | exact Hge]. }
      rewrite Hraise in H. discriminate. }
    rewrite (call_after_guards self output m Hr Em Hk) in H.
    destruct (mapM _ (enumerate (paired_indices self output))) as [sc|e] eqn:Es;
      simpl in H; [|discriminate].
    apply mapM_subscript_Ok_inv in Es. destruct Es as [Hlen Hrange].
    split; [exact Hr|]. split.
    { intros Hnil. rewrite Hnil in Em. discriminate. }
    split.
    - intros index Hin. apply Hrange. apply paired_indices_In. exact Hin.
    - apply (paired_indices_length self output). exact Hlen. }
  split; [split|].
  - intros [score H]. eapply Hinv. exact H.
  - intros [Hr [Hne [Hrange Hlen]]].
    destruct (call_values_paired self output Hr Hne Hrange) as [score [H _]].
    + apply paired_indices_length. exact Hlen.
    + eauto.
  - intros Hr Hne Hlt Hbad.
    destruct (CategoricalScore_call self output) as [score|e] eqn:H.
    + exfalso. destruct (Hinv score eq_refl) as [_ [_ [Hrange Hlen]]].
      destruct Hbad as [Hb | [index [Hin Hlow]]]; [lia|].
      specialize (Hrange index Hin). lia.
    + destruct (py_max_nonempty _ Hne) as [m Hm].
      assert (Hk : (m < Z.of_nat (last_dim output))%Z)
        by (apply Hlt; apply (py_max_spec _ _ Hm)).
      rewrite (call_after_guards self output m Hr Hm Hk) in H.
      destruct (mapM _ (enumerate (paired_indices self output))) as [sc|e'] eqn:Es;
        simpl in H.
      * destruct (tf_stack sc) as [st|e'] eqn:Et; simpl in H; [discriminate|].
        destruct sc; [|discriminate].
        apply mapM_Ok in Es. inversion Es as [Hnil|]. exfalso.
        unfold enumerate in Hnil. symmetry in Hnil.
        destruct (paired_indices self output) as [|x l] eqn:Ep; [|discriminate].
        apply paired_indices_nil in Ep. contradiction.
      * inversion H; subst e'. apply mapM_Raise in Es. destruct Es as [a [_ Ha]].
        apply subscript_Raise in Ha. congruence.
Qed.

(** X5.  [CategoricalScore.__call__] returns exactly when the output has
    rank 2 or more, an index is configured, every configured index lies in
    [[-K, K)] for the [K] channels, and there are no more indices than batch
    elements.  With indices below [K], more indices than batch elements or
    an index below [-K] make the subscript raise. *)
Theorem CategoricalScore_call_returns (self : CategoricalScore) (output : tensor) :
  ((exists score, CategoricalScore_call self output = Ok score) <->
   2 <= ndim output /\
   indices self <> [] /\
   (forall index, In index (indices self) ->
      (- Z.of_nat (last_dim output) <= index < Z.of_nat (last_dim output))%Z) /\
   length (indices self) <= batch_dim output) /\
  (2 <= ndim output -> indices self <> [] ->
   (forall index, In index (indices self) -> (index < Z.of_nat (last_dim output))%Z) ->
   batch_dim output < length (indices self) \/
   (exists index, In index (indices self) /\ (index < - Z.of_nat (last_dim output))%Z) ->
   CategoricalScore_call self output = Raise IndexError).
Proof. exact (call_returns self output). Qed.

Lemma CategoricalScore_call_returns_witness :
  (exists score,
      CategoricalScore_call (mkCategoricalScore [0%Z; (-1)%Z])
                            (mkTensor [3; 2] [1; 2; 3; 4; 5; 6]%Q) = Ok score) /\
  CategoricalScore_call (mkCategoricalScore [0%Z; 1%Z; 0%Z])
                        (mkTensor [2; 2] [1; 2; 3; 4]%Q) = Raise IndexError.
Proof.
  split.
  - apply (proj1 (CategoricalScore_call_returns (mkCategoricalScore [0%Z; (-1)%Z])
                    (mkTensor [3; 2] [1; 2; 3; 4; 5; 6]%Q))).
    unfold ndim, last_dim, batch_dim; simpl.
    split; [lia|]. split; [discriminate|]. split; [|lia].
    intros index [<- | [<- | []]]; lia.
  - apply (proj2 (CategoricalScore_call_returns (mkCategoricalScore [0%Z; 1%Z; 0%Z])
                    (mkTensor [2; 2] [1; 2; 3; 4]%Q)));
      unfold ndim, last_dim, batch_dim; simpl.
    + lia.
    + discriminate.
    + intros index [<- | [<- | [<- | []]]]; lia.
    + left. lia.
Defined.

(** X6.  With several indices, fewer than or as many as batch elements, the
    result has one entry per index: entry [i] is the mean of
    [output[i, ..., index]] for the [i]-th index, and the batch elements
    beyond the indices are left out without an error. *)
Theorem CategoricalScore_call_fewer_indices (self : CategoricalScore) (output : tensor) :
  2 <= ndim output ->
  1 < length (indices self) <= batch_dim output ->
  (forall index, In index (indices self) ->
     (- Z.of_nat (last_dim output) <= index < Z.of_nat (last_dim output))%Z) ->
  exists score,
    CategoricalScore_call self output = Ok score /\
    shape score = [length (indices self)] /\
    length (data score) = length (indices self) /\
    (forall i index,
        nth_error (indices self) i = Some index ->
        nth i (data score) 0%Q =
        if ndim output =? 2
        then at3 output 1 (last_dim output) i 0 (Spec.channel_of (last_dim output) index)
        else mean (channel_values output i (Spec.channel_of (last_dim output) index))).
Proof.
  intros Hr [Hlo Hhi] Hrange.
  assert (Hp : paired_indices self output = indices self)
    by (apply paired_indices_several; exact Hlo).
  destruct (call_values_paired self output Hr) as [score H].
  - intros Hnil. rewrite Hnil in Hlo. simpl in Hlo. lia.
  - exact Hrange.
  - rewrite Hp. exact Hhi.
  - rewrite Hp in H. exists score. exact H.
Qed.

Lemma CategoricalScore_call_fewer_indices_witness :
  exists score,
    CategoricalScore_call (mkCategoricalScore [0%Z; 1%Z])
                          (mkTensor [3; 2] [1; 2; 3; 4; 5; 6]%Q) = Ok score /\
    shape score = [2] /\
    nth 1 (data score) 0%Q = 4%Q.
Proof.
  destruct (CategoricalScore_call_fewer_indices (mkCategoricalScore [0%Z; 1%Z])
              (mkTensor [3; 2] [1; 2; 3; 4; 5; 6]%Q))
    as [score [Hcall [Hsh [_ Hval]]]].
  - unfold ndim; simpl; lia.
  - unfold batch_dim; simpl; lia.
  - unfold last_dim; simpl. intros index [<- | [<- | []]]; lia.
  - exists score. split; [exact Hcall|]. split; [exact Hsh|].
    apply (Hval 1 1%Z). reflexivity.
Defined.

Lemma channel_of_negative (K : nat) (index : Z) :
  (0 <= index < Z.of_nat K)%Z ->
  Spec.channel_of K (index - Z.of_nat K) = Spec.channel_of K index.
Proof.
  intros H. unfold Spec.channel_of. f_equal.
  rewrite (Z.mod_small index) by lia.
  symmetry. apply Z.mod_unique with (q := (-1)%Z); lia.
Qed.

Lemma paired_indices_map (f : Z -> Z) (self : CategoricalScore) (output : tensor) :
  paired_indices (mkCategoricalScore (map f (indices self))) output
  = map f (paired_indices self output).
Proof.
  unfold paired_indices. simpl indices. rewrite length_map.
  destruct ((length (indices self) =? 1) &&
            (length (indices self) <? batch_dim output)).
  - apply py_list_mul_map.
  - reflexivity.
Qed.

(** X7.  An index counted from the last channel selects what the index
    counted from the first selects: with every index [index] in [[0, K)]
    replaced by [index - K] the call returns the same tensor. *)
Theorem CategoricalScore_call_negative_index (self : CategoricalScore) (output : tensor) :
  2 <= ndim output ->
  indices self <> [] ->
  (forall index, In index (indices self) ->
     (0 <= index < Z.of_nat (last_dim output))%Z) ->
  length (indices self) <= batch_dim output ->
  CategoricalScore_call
    (mkCategoricalScore (map (fun index => (index - Z.of_nat (last_dim output))%Z)
                             (indices self))) output
  = CategoricalScore_call self output.
Proof.
  intros Hr Hne Hrange Hlen.
  set (K := last_dim output) in *.
  set (f := fun index : Z => (index - Z.of_nat K)%Z).
  set (self' := mkCategoricalScore (map f (indices self))).
  destruct (call_values_paired self output Hr Hne) as [s1 [H1 [Hs1 [Hl1 Hv1]]]].
  { intros index Hin. specialize (Hrange index Hin). fold K. lia. }
  { apply paired_indices_length. exact Hlen. }
  destruct (call_values_paired self' output Hr) as [s2 [H2 [Hs2 [Hl2 Hv2]]]].
  { simpl. intros E. apply map_eq_nil in E. contradiction. }
  { simpl. intros index Hin. apply in_map_iff in Hin.
    destruct Hin as [x [<- Hx]]. specialize (Hrange x Hx). unfold f. fold K. lia. }
  { unfold self'. rewrite paired_indices_map, length_map.
    apply paired_indices_length. exact Hlen. }
  rewrite H1, H2. f_equal.
  unfold self' in *. rewrite paired_indices_map in *. rewrite length_map in *.
  destruct s1 as [sh1 d1], s2 as [sh2 d2]. simpl in *. subst sh1 sh2. f_equal.
  apply nth_ext with (d := 0%Q) (d' := 0%Q); [congruence|].
  intros i Hi. rewrite Hl2 in Hi.
  destruct (nth_error (paired_indices self output) i) as [index|] eqn:En.
  2:{ apply nth_error_None in En. lia. }
  rewrite (Hv1 i index En).
  rewrite (Hv2 i (f index)) by (rewrite nth_error_map, En; reflexivity).
  assert (Hin : In index (indices self)).
  { apply (paired_indices_In self output). eapply nth_error_In. exact En. }
  unfold f. fold K. rewrite (channel_of_negative K index (Hrange index Hin)).
  reflexivity.
Qed.

Lemma CategoricalScore_call_negative_index_witness :
  CategoricalScore_call (mkCategoricalScore [(-2)%Z; (-1)%Z])
                        (mkTensor [2; 2; 2] [1; 2; 3; 4; 5; 6; 7; 8]%Q)
  = CategoricalScore_call (mkCategoricalScore [0%Z; 1%Z])
                          (mkTensor [2; 2; 2] [1; 2; 3; 4; 5; 6; 7; 8]%Q).
Proof.
  apply (CategoricalScore_call_negative_index (mkCategoricalScore [0%Z; 1%Z])
           (mkTensor [2; 2; 2] [1; 2; 3; 4; 5; 6; 7; 8]%Q)).
  - unfold ndim; simpl; lia.
  - discriminate.
  - unfold last_dim; simpl. intros index [<- | [<- | []]]; lia.
  - unfold batch_dim; simpl; lia.
Defined.

Lemma py_max_repeat (index : Z) (n : nat) : py_max (repeat index (S n)) = Ok index.
Proof.
  simpl. f_equal. induction n as [|n IH]; simpl.
  - reflexivity.
  - rewrite Z.max_id. exact IH.
Qed.

Lemma call_by_parts (self : CategoricalScore) (output : tensor) :
  CategoricalScore_call self output =
  if ndim output <? 2 then Raise (ValueError OutputShape)
  else
    m <- py_max (indices self) ;;
    if (Z.of_nat (last_dim output) <=? m)%Z then Raise (ValueError InvalidIndexValue)
    else
      score <- mapM (fun ii => subscript output (fst ii) (snd ii))
                    (enumerate (paired_indices self output)) ;;
      score <- tf_stack score ;;
      Ok (reduce_mean_tail score).
Proof. reflexivity. Qed.

(** X8.  One configured index gives the result that as many copies of it as
    there are batch elements give, on every output with a batch element. *)
Theorem CategoricalScore_call_broadcast (index : Z) (output : tensor) :
  1 <= batch_dim output ->
  CategoricalScore_call (mkCategoricalScore [index]) output
  = CategoricalScore_call (mkCategoricalScore (repeat index (batch_dim output))) output.
Proof.
  intros HB. rewrite !call_by_parts.
  destruct (batch_dim output) as [|n] eqn:EB; [lia|].
  assert (Hp : paired_indices (mkCategoricalScore [index]) output
               = paired_indices (mkCategoricalScore (repeat index (S n))) output).
  { unfold paired_indices. rewrite EB. cbn [indices]. rewrite repeat_length.
    rewrite Nat.ltb_irrefl, andb_false_r. cbn [length Nat.eqb].
    destruct (1 <? S n) eqn:E1; cbn [andb].
    - apply py_list_mul_single.
    - apply Nat.ltb_ge in E1. assert (n = 0) by lia. subst n. reflexivity. }
  rewrite Hp. cbn [indices]. rewrite py_max_repeat. reflexivity.
Qed.

Lemma CategoricalScore_call_broadcast_witness :
  CategoricalScore_call (mkCategoricalScore [1%Z])
                        (mkTensor [2; 2; 2] [1; 2; 3; 4; 5; 6; 7; 8]%Q)
  = CategoricalScore_call (mkCategoricalScore [1%Z; 1%Z])
                          (mkTensor [2; 2; 2] [1; 2; 3; 4; 5; 6; 7; 8]%Q).
Proof.
  apply (CategoricalScore_call_broadcast 1%Z
           (mkTensor [2; 2; 2] [1; 2; 3; 4; 5; 6; 7; 8]%Q)).
  unfold batch_dim; simpl; lia.
Defined.

(** ** The mean stays within the values *)

Lemma Qsum_bounds (l : list Q) (lo hi : Q) :
  (forall v, In v l -> (lo <= v <= hi)%Q) ->
  (inject_Z (Z.of_nat (length l)) * lo <= Qsum l
   /\ Qsum l <= inject_Z (Z.of_nat (length l)) * hi)%Q.
Proof.
  induction l as [|x l IH]; intros H.
  - simpl. unfold inject_Z. split; lra.
  - destruct IH as [IH1 IH2]; [intros v Hv; apply H; right; exact Hv|].
    destruct (H x (or_introl eq_refl)) as [Hx1 Hx2].
    change (length (x :: l)) with (S (length l)).
    rewrite Nat2Z.inj_succ. unfold Z.succ. rewrite inject_Z_plus.
    simpl Qsum. change (inject_Z 1) with 1%Q. split; lra.
Qed.

Lemma mean_bounds (l : list Q) (lo hi : Q) :
  l <> [] ->
  (forall v, In v l -> (lo <= v <= hi)%Q) ->
  (lo <= mean l <= hi)%Q.
Proof.
  intros Hne H. destruct (Qsum_bounds l lo hi H) as [H1 H2].
  assert (Hn : (0 < inject_Z (Z.of_nat (length l)))%Q).
  { destruct l as [|x l]; [congruence|].
    change 0%Q with (inject_Z 0). rewrite <- Zlt_Qlt. simpl length. lia. }
  unfold mean. split.
  - apply Qle_shift_div_l; [exact Hn | lra].
  - apply Qle_shift_div_r; [exact Hn | lra].
Qed.

(** X9.  On a well-formed output with at least one inner position, every
    entry of the score lies between any bounds that hold for all values of
    the output: a score of probabilities is a probability. *)
Theorem CategoricalScore_call_bounds (self : CategoricalScore) (output score : tensor)
    (lo hi : Q) :
  wf output -> numel (inner_dims output) <> 0 ->
  (forall v, In v (data output) -> (lo <= v <= hi)%Q) ->
  CategoricalScore_call self output = Ok score ->
  forall s, In s (data score) -> (lo <= s <= hi)%Q.
Proof.
  intros Hwf HP Hbound Hcall s Hs.
  destruct (proj1 (proj1 (call_returns self output))
              (ex_intro _ score Hcall)) as [Hr [Hne [Hrange Hlen]]].
  destruct (call_values_paired self output Hr Hne Hrange) as [sc [H [_ [Hl Hv]]]].
  { apply paired_indices_length. exact Hlen. }
  rewrite Hcall in H. inversion H; subst sc; clear H.
  apply (In_nth _ _ 0%Q) in Hs. destruct Hs as [i [Hi <-]].
  rewrite Hl in Hi.
  destruct (nth_error (paired_indices self output) i) as [index|] eqn:En.
  2:{ apply nth_error_None in En. lia. }
  rewrite (Hv i index En).
  assert (Hin : In index (indices self)).
  { apply (paired_indices_In self output). eapply nth_error_In. exact En. }
  assert (Hib : i < batch_dim output).
  { apply (paired_indices_length self output) in Hlen. lia. }
  set (K := last_dim output) in *.
  assert (Hc : Spec.channel_of K index < K).
  { specialize (Hrange index Hin). unfold Spec.channel_of.
    assert (HK : (0 < Z.of_nat K)%Z) by lia.
    pose proof (Z.mod_pos_bound index (Z.of_nat K) HK). lia. }
  assert (Hentry : forall p, p < numel (inner_dims output) ->
            (lo <= at3 output (numel (inner_dims output)) K i p (Spec.channel_of K index)
             <= hi)%Q).
  { intros p Hp. apply Hbound. unfold at3. apply nth_In.
    rewrite (wf_length output Hwf Hr). apply ScorecamFacts.position_bound; assumption. }
  destruct (ndim output =? 2) eqn:E2.
  - apply rank2_no_inner in E2; [|exact Hr].
    specialize (Hentry 0). rewrite E2 in Hentry. simpl in Hentry. apply Hentry. lia.
  - apply mean_bounds.
    + intros Hnil. apply (f_equal (@length Q)) in Hnil.
      rewrite length_channel_values in Hnil. simpl in Hnil. contradiction.
    + intros v Hv'. unfold channel_values in Hv'. apply in_map_iff in Hv'.
      destruct Hv' as [p [<- Hp]]. apply in_seq in Hp. apply Hentry. lia.
Qed.

Lemma CategoricalScore_call_bounds_witness : (1 <= 14 # 2 <= 8)%Q.
Proof.
  apply (CategoricalScore_call_bounds (mkCategoricalScore [1%Z])
           (mkTensor [2; 2; 2] [1; 2; 3; 4; 5; 6; 7; 8]%Q)
           (mkTensor [2] [6 # 2; 14 # 2]%Q)).
  - reflexivity.
  - discriminate.
  - simpl. intros v H.
    repeat (destruct H as [<- | H]; [split; discriminate|]). destruct H.
  - reflexivity.
  - right. left. reflexivity.
Defined.

End ScoresMore.

(* ================================================================== *)
(** * Further facts about scorecam.py *)

Module ScorecamMore.

Import Scorecam ScorecamFacts.

(** ** The channel selection *)

Lemma top_k_Ok_inv (values : list Q) (k : Z) (sel : list nat) :
  top_k values k = Ok sel ->
  (0 <= k <= Z.of_nat (length values))%Z /\ Spec.is_top_k values (Z.to_nat k) sel.
Proof.
  intros H.
  assert (Hk : (0 <= k <= Z.of_nat (length values))%Z).
  { unfold top_k in H.
    destruct ((k <? 0)%Z || (Z.of_nat (length values) <? k)%Z) eqn:E; [discriminate|].
    apply orb_false_iff in E. destruct E as [E1 E2].
    apply Z.ltb_ge in E1. apply Z.ltb_ge in E2. lia. }
  split; [exact Hk|].
  destruct (top_k_spec values k Hk) as [sel' [H' Hspec]].
  rewrite H in H'. inversion H'; subst sel'. exact Hspec.
Qed.

Lemma top_k_indices_Ok_inv (h : host) (t : tensor) (max_N : Z) (idx : list nat) :
  top_k_indices h t max_N = Ok idx ->
  exists sels,
    idx = unique (concat sels) /\
    Forall2 (fun row sel => Spec.is_top_k row (Z.to_nat max_N) sel)
            (activation_map_std h t) sels.
Proof.
  unfold top_k_indices. intros H.
  destruct (mapM (fun row => top_k row max_N) (activation_map_std h t))
    as [sels|e] eqn:E; simpl in H; [|discriminate].
  inversion H; subst idx. exists sels. split; [reflexivity|].
  apply mapM_Ok in E. clear H.
  induction E as [|row sel rows sels Hrow HF IH].
  - constructor.
  - constructor; [apply top_k_Ok_inv; exact Hrow | exact IH].
Qed.

Lemma top_k_indices_below (h : host) (t : tensor) (max_N : Z) (idx : list nat) :
  top_k_indices h t max_N = Ok idx ->
  NoDup idx /\ (forall c, In c idx -> c < last_dim t).
Proof.
  intros H. destruct (top_k_indices_Ok_inv h t max_N idx H) as [sels [-> HF]].
  split; [apply unique_NoDup|].
  intros c Hc. apply (proj1 (unique_In _ _)) in Hc. apply in_concat in Hc.
  destruct Hc as [sel [Hsel Hc]].
  destruct (Forall2_in_r _ _ _ _ HF Hsel) as [row [Hrow [_ [Hbound _]]]].
  rewrite (proj1 (proj2 (activation_map_std_rows h t)) row Hrow) in Hbound.
  apply Hbound. exact Hc.
Qed.

Lemma shape_last_Ok (t : tensor) : 1 <= ndim t -> shape_last t = Ok (last_dim t).
Proof.
  unfold shape_last, ndim. destruct (shape t); simpl; [lia | reflexivity].
Qed.

Lemma select_channels_Ok_inv (h : host) (t t' : tensor) (max_N : Z) :
  1 <= ndim t -> select_channels h t max_N = Ok t' ->
  ((Z.of_nat (last_dim t) <= max_N)%Z /\ t' = t) \/
  ((max_N < Z.of_nat (last_dim t))%Z /\
   exists idx, top_k_indices h t max_N = Ok idx /\ t' = gather_last t idx).
Proof.
  intros Hr H. unfold select_channels in H. rewrite (shape_last_Ok t Hr) in H.
  simpl in H. destruct (max_N <? Z.of_nat (last_dim t))%Z eqn:E.
  - apply Z.ltb_lt in E. right. split; [exact E|].
    destruct (top_k_indices h t max_N) as [idx|e]; simpl in H; [|discriminate].
    inversion H; subst. exists idx. split; reflexivity.
  - apply Z.ltb_ge in E. left. inversion H; subst. split; [exact E | reflexivity].
Qed.

Lemma select_channels_axes (h : host) (penultimate_output selected : tensor)
    (max_N : Z) :
  wf penultimate_output -> 2 <= ndim penultimate_output ->
  select_channels h penultimate_output max_N = Ok selected ->
  wf selected /\
  ndim selected = ndim penultimate_output /\
  batch_dim selected = batch_dim penultimate_output /\
  inner_dims selected = inner_dims penultimate_output /\
  last_dim selected <= last_dim penultimate_output.
Proof.
  intros Hwf Hr H.
  destruct (select_channels_Ok_inv h _ _ _ (Nat.lt_le_incl _ _ Hr) H)
    as [[_ ->] | [_ [idx [Hidx ->]]]].
  - repeat split; auto.
  - destruct (gather_dims penultimate_output idx Hr) as [Hb [Hi [Hl Hn]]].
    destruct (top_k_indices_below h _ _ _ Hidx) as [Hnd Hlt].
    split; [apply gather_wf; exact Hr|].
    split; [exact Hn|]. split; [exact Hb|]. split; [exact Hi|].
    rewrite Hl.
    apply Nat.le_trans with (length (seq 0 (last_dim penultimate_output)));
      [|rewrite length_seq; lia].
    apply NoDup_incl_length; [exact Hnd|].
    intros c Hc. apply in_seq. specialize (Hlt c Hc). lia.
Qed.

(** X10.  Whatever the cap, a selection that returns keeps the tensor well
    formed and keeps its rank, its batch size and its inner axes; only the
    channel axis changes, and it never grows. *)
Theorem select_channels_keeps_axes (h : host) (penultimate_output selected : tensor)
    (max_N : Z) :
  wf penultimate_output -> 2 <= ndim penultimate_output ->
  select_channels h penultimate_output max_N = Ok selected ->
  wf selected /\
  ndim selected = ndim penultimate_output /\
  batch_dim selected = batch_dim penultimate_output /\
  inner_dims selected = inner_dims penultimate_output /\
  last_dim selected <= last_dim penultimate_output.
Proof. exact (select_channels_axes h penultimate_output selected max_N). Qed.

Lemma select_channels_keeps_axes_witness :
  exists selected,
    select_channels Sample.sample_host Sample.two_samples 1 = Ok selected /\
    batch_dim selected = 2 /\ last_dim selected <= 3.
Proof.
  exists (gather_last Sample.two_samples [0; 2]).
  split; [reflexivity|].
  destruct (select_channels_keeps_axes Sample.sample_host Sample.two_samples
              (gather_last Sample.two_samples [0; 2]) 1)
    as [_ [_ [Hb [_ Hl]]]].
  - reflexivity.
  - unfold ndim; simpl; lia.
  - reflexivity.
  - split; [exact Hb | exact Hl].
Defined.

Lemma unique_length (l : list nat) : length (unique l) <= length l.
Proof.
  induction l as [|x l IH]; simpl; [lia|].
  pose proof (filter_length_le (fun y => negb (y =? x)) (unique l)). lia.
Qed.

Lemma before_irrefl (values : list Q) (i : nat) : ~ Spec.before values i i.
Proof.
  unfold Spec.before. intros [H | [_ H]]; [|lia].
  apply Qlt_irrefl in H. exact H.
Qed.

Lemma StronglySorted_NoDup {A} (R : A -> A -> Prop) (l : list A) :
  (forall a, ~ R a a) -> StronglySorted R l -> NoDup l.
Proof.
  intros Hirr Hs. induction Hs as [|a l Hs IH Ha]; constructor.
  - intros Hin. rewrite Forall_forall in Ha. apply (Hirr a). apply Ha. exact Hin.
  - exact IH.
Qed.

Lemma is_top_k_NoDup (values : list Q) (k : nat) (sel : list nat) :
  Spec.is_top_k values k sel -> NoDup sel.
Proof.
  intros [_ [_ [Hs _]]]. eapply StronglySorted_NoDup; [|exact Hs].
  intros i. apply before_irrefl.
Qed.

Lemma Forall2_concat_length {A B} (R : A -> list B -> Prop) (l : list A)
    (sels : list (list B)) (k : nat) :
  Forall2 R l sels -> (forall a sel, R a sel -> length sel = k) ->
  length (concat sels) = length l * k.
Proof.
  intros HF Hk. induction HF as [|a sel l sels Ha HF IH]; simpl.
  - reflexivity.
  - rewrite length_app, IH, (Hk a sel Ha). reflexivity.
Qed.

Lemma select_channels_kept (h : host) (penultimate_output : tensor) (max_N : Z) :
  wf penultimate_output -> 2 <= ndim penultimate_output ->
  1 <= batch_dim penultimate_output ->
  (0 <= max_N < Z.of_nat (last_dim penultimate_output))%Z ->
  exists selected,
    select_channels h penultimate_output max_N = Ok selected /\
    Z.to_nat max_N <= last_dim selected /\
    last_dim selected <= batch_dim penultimate_output * Z.to_nat max_N /\
    last_dim selected <= last_dim penultimate_output /\
    (batch_dim penultimate_output = 1 -> last_dim selected = Z.to_nat max_N).
Proof.
  intros Hwf Hr HB Hk.
  destruct (top_k_indices_spec h penultimate_output max_N) as [sels [HF Hidx]]; [lia|].
  assert (Hsel : select_channels h penultimate_output max_N
                 = Ok (gather_last penultimate_output (unique (concat sels)))).
  { unfold select_channels. rewrite (shape_last_Ok _ (Nat.lt_le_incl _ _ Hr)). simpl.
    destruct (max_N <? Z.of_nat (last_dim penultimate_output))%Z eqn:E;
      [|apply Z.ltb_ge in E; lia].
    rewrite Hidx. reflexivity. }
  exists (gather_last penultimate_output (unique (concat sels))).
  split; [exact Hsel|].
  destruct (select_channels_axes h _ _ _ Hwf Hr Hsel) as [_ [_ [_ [_ Hle]]]].
  destruct (gather_dims penultimate_output (unique (concat sels)) Hr) as [_ [_ [Hl _]]].
  rewrite Hl in *.
  assert (Hlen : length sels = batch_dim penultimate_output).
  { rewrite <- (Forall2_length HF).
    apply (proj1 (activation_map_std_rows h penultimate_output)). }
  assert (Hcat : length (concat sels)
                 = batch_dim penultimate_output * Z.to_nat max_N).
  { rewrite (Forall2_concat_length _ _ _ (Z.to_nat max_N) HF).
    - rewrite (proj1 (activation_map_std_rows h penultimate_output)). reflexivity.
    - intros row sel [Hl' _]. exact Hl'. }
  assert (Hlow : Z.to_nat max_N <= length (unique (concat sels))).
  { destruct sels as [|sel sels']; [simpl in Hlen; lia|].
    inversion HF as [|row ? rows ? Hrow HF']; subst.
    destruct Hrow as [Hl' Hrest] eqn:Ek. rewrite <- Hl'.
    apply NoDup_incl_length.
    - eapply is_top_k_NoDup. split; [exact Hl' | exact Hrest].
    - intros c Hc. apply unique_In. simpl. apply in_or_app. left. exact Hc. }
  assert (Hup : length (unique (concat sels))
                <= batch_dim penultimate_output * Z.to_nat max_N).
  { rewrite <- Hcat. apply unique_length. }
  split; [exact Hlow|]. split; [exact Hup|]. split; [exact Hle|].
  intros H1. rewrite H1 in Hup. lia.
Qed.

(** X11.  With a cap [0 <= max_N < K] and at least one batch element, the
    selection keeps at least [max_N] channels and at most [batch * max_N],
    and never more than [K]; on a batch of one it keeps exactly [max_N]. *)
Theorem select_channels_count (h : host) (penultimate_output : tensor) (max_N : Z) :
  wf penultimate_output -> 2 <= ndim penultimate_output ->
  1 <= batch_dim penultimate_output ->
  (0 <= max_N < Z.of_nat (last_dim penultimate_output))%Z ->
  exists selected,
    select_channels h penultimate_output max_N = Ok selected /\
    Z.to_nat max_N <= last_dim selected /\
    last_dim selected <= batch_dim penultimate_output * Z.to_nat max_N /\
    last_dim selected <= last_dim penultimate_output /\
    (batch_dim penultimate_output = 1 -> last_dim selected = Z.to_nat max_N).
Proof. exact (select_channels_kept h penultimate_output max_N). Qed.

Lemma select_channels_count_witness :
  exists selected,
    select_channels Sample.sample_host Sample.activation 2 = Ok selected /\
    last_dim selected = 2.
Proof.
  destruct (select_channels_count Sample.sample_host Sample.activation 2)
    as [selected [H [_ [_ [_ Hone]]]]].
  - reflexivity.
  - unfold ndim; simpl; lia.
  - unfold batch_dim; simpl; lia.
  - unfold last_dim; simpl; lia.
  - exists selected. split; [exact H|]. apply Hone. reflexivity.
Defined.

(** X12.  On a batch of one the selection is idempotent: selecting again
    with the same cap from what was selected changes nothing. *)
Theorem select_channels_idempotent (h : host) (penultimate_output selected : tensor)
    (max_N : Z) :
  wf penultimate_output -> 2 <= ndim penultimate_output ->
  batch_dim penultimate_output = 1 ->
  select_channels h penultimate_output max_N = Ok selected ->
  select_channels h selected max_N = Ok selected.
Proof.
  intros Hwf Hr HB H.
  destruct (select_channels_axes h _ _ _ Hwf Hr H) as [_ [Hn _]].
  assert (Hlast : (Z.of_nat (last_dim selected) <= max_N)%Z).
  { destruct (select_channels_Ok_inv h _ _ _ (Nat.lt_le_incl _ _ Hr) H)
      as [[Hk ->] | [Hk [idx [Hidx ->]]]]; [exact Hk|].
    assert (H0 : (0 <= max_N)%Z).
    { destruct (Z.lt_ge_cases max_N 0) as [Hneg | Hpos]; [|exact Hpos].
      rewrite select_channels_negative_cap in H; try assumption; try lia.
      - discriminate.
      - unfold ndim in Hr. intros E. rewrite E in Hr. simpl in Hr. lia. }
    destruct (select_channels_kept h penultimate_output max_N Hwf Hr)
      as [sel' [H' [_ [_ [_ Hone]]]]]; [lia | lia |].
    rewrite H in H'. inversion H' as [E]. rewrite <- E in Hone.
    rewrite (Hone HB). lia. }
  unfold select_channels. rewrite shape_last_Ok by lia. simpl.
  destruct (max_N <? Z.of_nat (last_dim selected))%Z eqn:E;
    [apply Z.ltb_lt in E; lia | reflexivity].
Qed.

Lemma select_channels_idempotent_witness :
  select_channels Sample.sample_host (gather_last Sample.activation [2; 0]) 2
  = Ok (gather_last Sample.activation [2; 0]).
Proof.
  apply (select_channels_idempotent Sample.sample_host Sample.activation).
  - reflexivity.
  - unfold ndim; simpl; lia.
  - reflexivity.
  - reflexivity.
Defined.

(** X13.  A negative [max_N] other than -1 is not taken as "no cap": when
    the cap helper leaves it negative, the call raises in the channel
    selection, after the forward pass of the extracted model and the call of
    the helper, and before anything is resized or predicted. *)
Theorem negative_max_N_raises (h : host) (score : pyarg Score)
    (seed_input : pyarg tensor) (activation_modifier : option (tensor -> result tensor))
    (batch_size : nat) (max_N : Z) (expand_cam standardize_cam : bool)
    (scores : list Score) (seed_inputs : list tensor) (penultimate_output : tensor) :
  get_scores_for_multiple_outputs h score = Ok scores ->
  get_seed_inputs_for_multiple_inputs h seed_input = Ok seed_inputs ->
  penultimate_model h seed_inputs = Ok penultimate_output ->
  shape (if is_mixed_precision h then tf_cast h penultimate_output
         else penultimate_output) <> [] ->
  1 <= batch_dim (if is_mixed_precision h then tf_cast h penultimate_output
                  else penultimate_output) ->
  (max_N < -1)%Z ->
  (get_num_of_steps_allowed h max_N < 0)%Z ->
  run (Scorecam_call h score seed_input activation_modifier batch_size (Some max_N)
                     expand_cam standardize_cam)
  = ([PrepareScores; PrepareSeedInputs; PenultimateForward; StepsAllowed],
     Raise InvalidArgumentError).
Proof.
  intros Hs Hi Hp Hshape Hb Hn Hcap.
  unfold run, Scorecam_call, mbind, call. rewrite Hs, Hi. simpl. rewrite Hp.
  unfold resolve_max_N.
  destruct (max_N =? -1)%Z eqn:E1; [apply Z.eqb_eq in E1; lia|].
  destruct (max_N =? 0)%Z eqn:E0; [apply Z.eqb_eq in E0; lia|].
  unfold lift. simpl.
  rewrite (select_channels_negative_cap h _ _ Hshape Hb Hcap). reflexivity.
Qed.

Lemma negative_max_N_raises_witness :
  run (Scorecam_call Sample.sample_host (PyValue Sample.first_class)
         (PyValue Sample.seed) (Some Sample.relu) 32 (Some (-2)%Z) true true)
  = ([PrepareScores; PrepareSeedInputs; PenultimateForward; StepsAllowed],
     Raise InvalidArgumentError).
Proof.
  apply (negative_max_N_raises Sample.sample_host (PyValue Sample.first_class)
           (PyValue Sample.seed) (Some Sample.relu) 32 (-2)%Z true true
           [Sample.first_class] [Sample.seed] Sample.activation).
  - reflexivity.
  - reflexivity.
  - reflexivity.
  - discriminate.
  - unfold batch_dim; simpl; lia.
  - lia.
  - simpl. lia.
Defined.

Lemma sort_desc_ties (l : list (Q * nat)) :
  (forall a b, In a l -> In b l -> (fst a == fst b)%Q) -> sort_desc l = l.
Proof.
  induction l as [|x l IH]; intros H; simpl.
  - reflexivity.
  - rewrite IH by (intros a b Ha Hb; apply H; right; assumption).
    destruct l as [|y l']; simpl; [reflexivity|].
    assert (E : Qle_bool (fst y) (fst x) = true).
    { apply Qle_bool_iff.
      rewrite (H y x (or_intror (or_introl eq_refl)) (or_introl eq_refl)).
      apply Qle_refl. }
    rewrite E. reflexivity.
Qed.

Lemma unique_NoDup_id (l : list nat) : NoDup l -> unique l = l.
Proof.
  induction 1 as [|x l Hx Hnd IH]; simpl; [reflexivity|].
  rewrite IH. f_equal. apply forallb_filter_id.
  apply forallb_forall. intros y Hy. apply negb_true_iff, Nat.eqb_neq.
  intros ->. contradiction.
Qed.

Lemma firstn_seq0 (k n : nat) : k <= n -> firstn k (seq 0 n) = seq 0 k.
Proof.
  intros H. replace n with (k + (n - k)) by lia.
  rewrite seq_app, firstn_app, length_seq, Nat.sub_diag. simpl.
  rewrite app_nil_r. apply firstn_all2. rewrite length_seq. lia.
Qed.

(** X14.  On a batch of one whose channels all have the same statistic (as
    when every channel is constant over the inner positions), the channels
    kept are the first [max_N], in index order: equal values are ranked by
    position, whatever the channels hold. *)
Theorem select_channels_ties (h : host) (penultimate_output : tensor) (max_N : Z) :
  2 <= ndim penultimate_output ->
  batch_dim penultimate_output = 1 ->
  (0 <= max_N < Z.of_nat (last_dim penultimate_output))%Z ->
  (forall c c',
      c < last_dim penultimate_output -> c' < last_dim penultimate_output ->
      (reduce_std h (channel_values penultimate_output 0 c)
       == reduce_std h (channel_values penultimate_output 0 c'))%Q) ->
  select_channels h penultimate_output max_N
  = Ok (gather_last penultimate_output (seq 0 (Z.to_nat max_N))).
Proof.
  intros Hr HB Hk Hties.
  set (K := last_dim penultimate_output) in *.
  unfold select_channels. rewrite (shape_last_Ok _ (Nat.lt_le_incl _ _ Hr)). simpl.
  fold K. destruct (max_N <? Z.of_nat K)%Z eqn:E; [|apply Z.ltb_ge in E; lia].
  unfold top_k_indices, activation_map_std. rewrite HB. fold K. simpl mapM.
  set (row := map (fun c => reduce_std h (channel_values penultimate_output 0 c))
                  (seq 0 K)).
  assert (Hlen : length row = K) by (unfold row; rewrite length_map, length_seq; reflexivity).
  unfold top_k. rewrite Hlen.
  destruct ((max_N <? 0)%Z || (Z.of_nat K <? max_N)%Z) eqn:Eg.
  { apply orb_prop in Eg. destruct Eg as [Eg | Eg]; apply Z.ltb_lt in Eg; lia. }
  simpl bind. do 2 f_equal.
  rewrite sort_desc_ties.
  - rewrite <- Hlen, map_snd_combine_seq, Hlen.
    simpl concat. rewrite app_nil_r, firstn_seq0 by lia.
    apply unique_NoDup_id. apply seq_NoDup.
  - intros a b Ha Hb.
    assert (Hrow : forall x, In x (combine row (seq 0 K)) ->
              snd x < K /\
              fst x = reduce_std h (channel_values penultimate_output 0 (snd x))).
    { intros x Hx. rewrite <- Hlen in Hx.
      destruct (combine_seq_entries row x Hx) as [Hx1 Hx2]. rewrite Hlen in Hx1.
      split; [exact Hx1|]. rewrite Hx2. unfold row.
      exact (nth_map_seq (fun c => reduce_std h (channel_values penultimate_output 0 c))
                         K (snd x) 0%Q Hx1). }
    destruct (Hrow a Ha) as [Ha1 ->]. destruct (Hrow b Hb) as [Hb1 ->].
    apply Hties; assumption.
Qed.

Lemma select_channels_ties_witness :
  select_channels Sample.sample_host Sample.flat_map 2
  = Ok (gather_last Sample.flat_map [0; 1]).
Proof.
  apply (select_channels_ties Sample.sample_host Sample.flat_map 2).
  - unfold ndim; simpl; lia.
  - reflexivity.
  - unfold last_dim; simpl; lia.
  - unfold last_dim. simpl. intros c c' Hc Hc'.
    assert (Hall : forall d, d < 3 ->
              Sample.spread (channel_values Sample.flat_map 0 d) = 0%Q).
    { intros d Hd. destruct d as [|[|[|d]]]; [reflexivity | reflexivity | reflexivity | lia]. }
    rewrite (Hall c Hc), (Hall c' Hc'). reflexivity.
Defined.

(** ** The normalization *)

Lemma Qdiv_zero (x d : Q) : (x == 0)%Q -> (x / d == 0)%Q.
Proof. intros H. unfold Qdiv. rewrite H. apply Qmult_0_l. Qed.

(** X15.  In a normalized map the position that holds the minimum of its
    batch element and channel holds zero, and a channel that is constant
    over the inner positions is zero everywhere: with nothing but the
    epsilon in the denominator the quotient is zero, not undefined. *)
Theorem normalize_minimum_is_zero (h : host) (activation_map normalized : tensor)
    (b p c : nat) :
  wf activation_map -> 2 <= ndim activation_map ->
  normalize h activation_map = Ok normalized ->
  b < batch_dim activation_map ->
  p < numel (inner_dims activation_map) ->
  c < last_dim activation_map ->
  let P := numel (inner_dims activation_map) in
  let K := last_dim activation_map in
  ((at3 activation_map P K b p c == list_min (channel_values activation_map b c))%Q ->
   (at3 normalized P K b p c == 0)%Q) /\
  ((list_max (channel_values activation_map b c)
    == list_min (channel_values activation_map b c))%Q ->
   (at3 normalized P K b p c == 0)%Q).
Proof.
  intros Hwf Hr Hn Hb Hp Hc P K. subst P K.
  rewrite (normalize_at3 h activation_map _ b p c Hwf Hr Hn Hb Hp Hc).
  pose proof (list_min_le _ _ (in_channel_values activation_map b p c Hp)) as Hlo.
  pose proof (list_max_ge _ _ (in_channel_values activation_map b p c Hp)) as Hhi.
  split; intros H; apply Qdiv_zero; lra.
Qed.

Lemma normalize_minimum_is_zero_witness :
  exists normalized,
    normalize Sample.sample_host Sample.flat_map = Ok normalized /\
    (at3 normalized 2 3 0 1 2 == 0)%Q.
Proof.
  destruct (normalize Sample.sample_host Sample.flat_map) as [n|e] eqn:E;
    [|vm_compute in E; discriminate].
  exists n. split; [reflexivity|].
  apply (proj2 (normalize_minimum_is_zero Sample.sample_host Sample.flat_map n 0 1 2
                  eq_refl ltac:(unfold ndim; simpl; lia) E
                  ltac:(unfold batch_dim; simpl; lia) ltac:(simpl; lia)
                  ltac:(unfold last_dim; simpl; lia))).
  reflexivity.
Defined.






(** X18.  The normalization raises exactly on a map of rank 2 or more with
    no inner position (an inner axis of length zero); on a map of rank below
    2, where there is no inner axis to reduce, every value is its own minimum
    and maximum and the result is zero throughout. *)
Theorem normalize_edges (h : host) (activation_map : tensor) :
  ((exists e, normalize h activation_map = Raise e) <->
   2 <= ndim activation_map /\ numel (inner_dims activation_map) = 0) /\
  (ndim activation_map < 2 ->
   exists normalized,
     normalize h activation_map = Ok normalized /\
     shape normalized = shape activation_map /\
     length (data normalized) = length (data activation_map) /\
     forall v, In v (data normalized) -> (v == 0)%Q).
Proof.
  split; [split|].
  - intros [e He]. eapply normalize_Raise. exact He.
  - intros [Hr HP]. unfold normalize.
    destruct (ndim activation_map <? 2) eqn:E; [apply Nat.ltb_lt in E; lia|].
    rewrite HP. simpl. eauto.
  - intros Hr. rewrite (normalize_low_rank h _ Hr). eexists.
    split; [reflexivity|]. split; [reflexivity|]. split; [apply length_map|].
    intros v Hv. simpl in Hv. apply in_map_iff in Hv. destruct Hv as [a [<- _]].
    apply Qdiv_zero. ring.
Qed.

Lemma normalize_edges_witness :
  (exists e, normalize Sample.sample_host (mkTensor [2; 0; 3] []) = Raise e) /\
  (exists normalized,
      normalize Sample.sample_host (mkTensor [2] [3; 9]%Q) = Ok normalized /\
      forall v, In v (data normalized) -> (v == 0)%Q).
Proof.
  split.
  - apply (proj2 (proj1 (normalize_edges Sample.sample_host (mkTensor [2; 0; 3] [])))).
    unfold ndim; simpl. split; [lia | reflexivity].
  - destruct (proj2 (normalize_edges Sample.sample_host (mkTensor [2] [3; 9]%Q)))
      as [n [Hn [_ [_ Hz]]]].
    + unfold ndim; simpl; lia.
    + exists n. split; [exact Hn | exact Hz].
Defined.

(** ** What a call returns *)








(** ** The order of the collaborator calls *)

Import Phases.

Lemma emits_ret {A} (S : event -> bool) (a : A) : emits S (ret a).
Proof.
  intros tr tr' r H. unfold ret in H. inversion H; subst.
  exists []. rewrite app_nil_r. auto.
Qed.

Lemma emits_raise {A} (S : event -> bool) (e : exn) : emits S (@raise A e).
Proof.
  intros tr tr' r H. unfold raise in H. inversion H; subst.
  exists []. rewrite app_nil_r. auto.
Qed.

Lemma emits_lift {A} (S : event -> bool) (x : result A) : emits S (lift x).
Proof.
  intros tr tr' r H. unfold lift in H. inversion H; subst.
  exists []. rewrite app_nil_r. auto.
Qed.

Lemma emits_call {A} (S : event -> bool) (ev : event) (x : result A) :
  S ev = true -> emits S (call ev x).
Proof.
  intros HS tr tr' r H. unfold call in H. inversion H; subst.
  exists [ev]. split; [reflexivity|]. simpl. rewrite HS. reflexivity.
Qed.

Lemma emits_bind {A B} (S : event -> bool) (m : M A) (k : A -> M B) :
  emits S m -> (forall a, emits S (k a)) -> emits S (mbind m k).
Proof.
  intros Hm Hk tr tr' r H. unfold mbind in H.
  destruct (m tr) as [tr1 [a|e]] eqn:Em.
  - destruct (Hm _ _ _ Em) as [s1 [-> Hs1]].
    destruct (Hk a _ _ _ H) as [s2 [-> Hs2]].
    exists (s1 ++ s2). rewrite app_assoc, forallb_app, Hs1, Hs2. auto.
  - destruct (Hm _ _ _ Em) as [s1 [-> Hs1]]. inversion H; subst. eauto.
Qed.

Lemma emits_mmapM {A B} (S : event -> bool) (f : A -> M B) (l : list A) :
  (forall a, emits S (f a)) -> emits S (mmapM f l).
Proof.
  intros Hf. induction l as [|a l IH]; simpl.
  - apply emits_ret.
  - apply emits_bind; [apply Hf|]. intros b.
    apply emits_bind; [exact IH|]. intros bs. apply emits_ret.
Qed.

Lemma phased_pre {A B} (m : M A) (k : A -> M B) :
  emits before_predict m -> (forall a, phased (k a)) -> phased (mbind m k).
Proof.
  intros Hm Hk tr tr' r H. unfold mbind in H.
  destruct (m tr) as [tr1 [a|e]] eqn:Em.
  - destruct (Hm _ _ _ Em) as [s1 [-> Hs1]].
    destruct (Hk a _ _ _ H) as [pre [mid [post [-> [Hpre Hrest]]]]].
    exists (s1 ++ pre), mid, post. split; [rewrite <- !app_assoc; reflexivity|].
    split; [rewrite forallb_app, Hs1, Hpre; reflexivity | exact Hrest].
  - destruct (Hm _ _ _ Em) as [s1 [-> Hs1]]. inversion H; subst.
    exists s1, [], []. rewrite !app_nil_r.
    split; [reflexivity|]. split; [exact Hs1|]. split; [left; reflexivity|].
    split; [reflexivity|]. split; [reflexivity | discriminate].
Qed.

Lemma phased_predict {A B} (x : result A) (k : A -> M B) :
  (forall a, emits after_predict (k a)) -> phased (mbind (call Predict x) k).
Proof.
  intros Hk tr tr' r H. unfold mbind, call in H. destruct x as [a|e].
  - destruct (Hk a _ _ _ H) as [s [-> Hs]].
    exists [], [Predict], s. rewrite <- app_assoc.
    split; [reflexivity|]. split; [reflexivity|]. split; [right; reflexivity|].
    split; [exact Hs|]. split; [discriminate | reflexivity].
  - inversion H; subst. exists [], [Predict], [].
    split; [reflexivity|]. split; [reflexivity|]. split; [right; reflexivity|].
    split; [reflexivity|]. split; [discriminate | reflexivity].
Qed.

Lemma resolve_max_N_emits (h : host) (max_N : option Z) (t : tensor) :
  emits before_predict (resolve_max_N h max_N t).
Proof.
  unfold resolve_max_N. destruct max_N as [n|].
  - destruct (n =? -1)%Z.
    + apply emits_bind; [apply emits_lift|]. intros K. apply emits_call. reflexivity.
    + destruct (n =? 0)%Z; [apply emits_raise | apply emits_call; reflexivity].
  - apply emits_bind; [apply emits_lift|]. intros K. apply emits_call. reflexivity.
Qed.

Lemma upsample_emits (h : host) (t x : tensor) : emits before_predict (upsample h t x).
Proof.
  unfold upsample. apply emits_bind; [apply emits_lift|].
  intros factor. apply emits_call. reflexivity.
Qed.

Lemma expand_emits (h : host) (cam x : tensor) : emits after_predict (expand h cam x).
Proof.
  unfold expand. apply emits_bind; [apply emits_lift|].
  intros factor. apply emits_call. reflexivity.
Qed.

Lemma score_weights_emits (h : host) (batch channels : nat) (score : Score)
    (prediction : tensor) :
  emits after_predict (score_weights h batch channels score prediction).
Proof.
  unfold score_weights.
  apply emits_bind; [apply emits_mmapM; intros p; apply emits_call; reflexivity|].
  intros w. apply emits_bind; [apply emits_lift|].
  intros w'. apply emits_bind; [apply emits_lift|].
  intros w''. apply emits_lift.
Qed.

Lemma Scorecam_call_phased (h : host) (score : pyarg Score)
    (seed_input : pyarg tensor) (activation_modifier : option (tensor -> result tensor))
    (batch_size : nat) (max_N : option Z) (expand_cam standardize_cam : bool) :
  phased (Scorecam_call h score seed_input activation_modifier batch_size max_N
                        expand_cam standardize_cam).
Proof.
  unfold Scorecam_call.
  apply phased_pre; [apply emits_call; reflexivity|]. intros scores.
  apply phased_pre; [apply emits_call; reflexivity|]. intros seed_inputs.
  apply phased_pre; [apply emits_call; reflexivity|]. intros penultimate_output.
  cbv zeta.
  apply phased_pre; [apply resolve_max_N_emits|]. intros cap.
  apply phased_pre; [apply emits_lift|]. intros selected.
  apply phased_pre; [apply emits_lift|]. intros channels.
  apply phased_pre; [apply emits_mmapM; intros x; apply upsample_emits|]. intros maps.
  apply phased_pre; [apply emits_lift|]. intros masked.
  apply phased_predict. intros preds.
  apply emits_bind; [apply emits_lift|]. intros preds'.
  apply emits_bind; [apply emits_mmapM; intros sp; apply score_weights_emits|].
  intros weights.
  apply emits_bind; [apply emits_lift|]. intros weights'.
  apply emits_bind; [apply emits_lift|]. intros weights''.
  apply emits_bind; [apply emits_lift|]. intros cam.
  apply emits_bind.
  { destruct activation_modifier; [apply emits_call; reflexivity | apply emits_ret]. }
  intros cam'. destruct (negb expand_cam).
  - apply emits_bind.
    { destruct standardize_cam; [apply emits_call; reflexivity | apply emits_ret]. }
    intros cam''. apply emits_ret.
  - apply emits_bind; [apply emits_mmapM; intros x; apply expand_emits|].
    intros cams. apply emits_bind.
    { destruct standardize_cam; [|apply emits_ret].
      apply emits_mmapM. intros x. apply emits_call. reflexivity. }
    intros cams'.
    destruct ((num_inputs h =? 1) && negb (isinstance_list seed_input));
      [|apply emits_ret].
    destruct cams'; [apply emits_raise | apply emits_ret].
Qed.

(** X21.  In every run of [__call__], whatever it is given and however it
    ends, the calls made fall into three parts: first calls that prepare
    (scores, seed inputs, forward pass of the extracted model, cap helper,
    resizing of the activation maps), then at most one call of the model's
    [predict], then calls of score functions, the activation modifier,
    resizing and standardization, none of which happens unless [predict] was
    called.  A run that returns has called [predict], exactly once. *)
Theorem calls_in_phases (h : host) (score : pyarg Score)
    (seed_input : pyarg tensor) (activation_modifier : option (tensor -> result tensor))
    (batch_size : nat) (max_N : option Z) (expand_cam standardize_cam : bool) :
  exists pre mid post,
    fst (run (Scorecam_call h score seed_input activation_modifier batch_size max_N
                            expand_cam standardize_cam))
    = pre ++ mid ++ post /\
    forallb before_predict pre = true /\
    (mid = [] \/ mid = [Predict]) /\
    forallb after_predict post = true /\
    (mid = [] -> post = []) /\
    (forall r,
        snd (run (Scorecam_call h score seed_input activation_modifier batch_size max_N
                                expand_cam standardize_cam)) = Ok r ->
        mid = [Predict]).
Proof.
  unfold run.
  destruct (Scorecam_call h score seed_input activation_modifier batch_size max_N
                          expand_cam standardize_cam []) as [tr r] eqn:E.
  destruct (Scorecam_call_phased h score seed_input activation_modifier batch_size
              max_N expand_cam standardize_cam [] tr r E)
    as [pre [mid [post [Htr Hrest]]]].
  exists pre, mid, post. simpl in *. split; [exact Htr | exact Hrest].
Qed.

(** ** Adding a constant to the activations *)

Lemma fold_min_shift (l : list Q) (k a a' : Q) :
  (a' == k + a)%Q ->
  (fold_left Qmin (map (Qplus k) l) a' == k + fold_left Qmin l a)%Q.
Proof.
  revert a a'. induction l as [|y l IH]; intros a a' H; simpl.
  - exact H.
  - apply IH. rewrite H. apply Q.plus_min_distr_l.
Qed.

Lemma fold_max_shift (l : list Q) (k a a' : Q) :
  (a' == k + a)%Q ->
  (fold_left Qmax (map (Qplus k) l) a' == k + fold_left Qmax l a)%Q.
Proof.
  revert a a'. induction l as [|y l IH]; intros a a' H; simpl.
  - exact H.
  - apply IH. rewrite H. apply Q.plus_max_distr_l.
Qed.

Lemma list_min_shift (l : list Q) (k : Q) :
  l <> [] -> (list_min (map (Qplus k) l) == k + list_min l)%Q.
Proof.
  destruct l as [|x l]; [congruence|]. intros _. simpl.
  apply fold_min_shift. reflexivity.
Qed.

Lemma list_max_shift (l : list Q) (k : Q) :
  l <> [] -> (list_max (map (Qplus k) l) == k + list_max l)%Q.
Proof.
  destruct l as [|x l]; [congruence|]. intros _. simpl.
  apply fold_max_shift. reflexivity.
Qed.

(** The map with [k] added to every value. *)
Lemma channel_values_shift (a : tensor) (k : Q) (b c : nat) :
  wf a -> 2 <= ndim a -> b < batch_dim a -> c < last_dim a ->
  channel_values (mkTensor (shape a) (map (Qplus k) (data a))) b c
  = map (Qplus k) (channel_values a b c).
Proof.
  intros Hwf Hr Hb Hc. unfold channel_values, inner_dims, last_dim. simpl shape.
  rewrite map_map. apply map_ext_in. intros p Hp. apply in_seq in Hp.
  unfold at3. simpl data. apply nth_map_in.
  rewrite (wf_length a Hwf Hr). apply position_bound; [exact Hb | | exact Hc].
  unfold inner_dims. lia.
Qed.

(** X22.  Adding one constant to every value of a map does not change its
    normalization: the masks depend on the activations only up to a shift. *)
Theorem normalize_shift (h : host) (activation_map normalized normalized' : tensor)
    (k : Q) (b p c : nat) :
  (0 < epsilon h)%Q -> wf activation_map -> 2 <= ndim activation_map ->
  normalize h activation_map = Ok normalized ->
  normalize h (mkTensor (shape activation_map) (map (Qplus k) (data activation_map)))
  = Ok normalized' ->
  b < batch_dim activation_map ->
  p < numel (inner_dims activation_map) ->
  c < last_dim activation_map ->
  let P := numel (inner_dims activation_map) in
  let K := last_dim activation_map in
  (at3 normalized' P K b p c == at3 normalized P K b p c)%Q.
Proof.
  intros He Hwf Hr Hn Hn' Hb Hp Hc P K. subst P K.
  set (a' := mkTensor (shape activation_map) (map (Qplus k) (data activation_map))) in *.
  assert (Hwf' : wf a') by (unfold wf, a'; simpl; rewrite length_map; exact Hwf).
  rewrite (normalize_at3 h activation_map _ b p c Hwf Hr Hn Hb Hp Hc).
  pose proof (normalize_at3 h a' normalized' b p c Hwf' Hr Hn' Hb Hp Hc) as E.
  simpl in E. change (inner_dims a') with (inner_dims activation_map) in E.
  change (last_dim a') with (last_dim activation_map) in E.
  rewrite E. clear E.
  assert (Hne : channel_values activation_map b c <> []).
  { intros Hnil. apply (f_equal (@length Q)) in Hnil.
    unfold channel_values in Hnil. rewrite length_map, length_seq in Hnil.
    simpl in Hnil. lia. }
  unfold a'. rewrite (channel_values_shift activation_map k b c Hwf Hr Hb Hc).
  rewrite (list_min_shift _ k Hne), (list_max_shift _ k Hne).
  assert (Hx : at3 (mkTensor (shape activation_map) (map (Qplus k) (data activation_map)))
                   (numel (inner_dims activation_map)) (last_dim activation_map) b p c
               = (k + at3 activation_map (numel (inner_dims activation_map))
                          (last_dim activation_map) b p c)%Q).
  { unfold at3. simpl data. apply nth_map_in.
    rewrite (wf_length _ Hwf Hr). apply position_bound; assumption. }
  rewrite Hx. unfold Qdiv. apply Qmult_comp; [ring|].
  apply Qinv_comp. ring.
Qed.

Lemma normalize_shift_witness :
  exists normalized normalized',
    normalize Sample.sample_host Sample.unit_map = Ok normalized /\
    normalize Sample.sample_host
      (mkTensor (shape Sample.unit_map) (map (Qplus 5) (data Sample.unit_map)))
    = Ok normalized' /\
    (at3 normalized' 4 1 0 1 0 == at3 normalized 4 1 0 1 0)%Q.
Proof.
  destruct (normalize Sample.sample_host Sample.unit_map) as [n|e] eqn:E;
    [|vm_compute in E; discriminate].
  destruct (normalize Sample.sample_host
              (mkTensor (shape Sample.unit_map) (map (Qplus 5) (data Sample.unit_map))))
    as [n'|e] eqn:E'; [|vm_compute in E'; discriminate].
  exists n, n'. split; [reflexivity|]. split; [reflexivity|].
  apply (normalize_shift Sample.sample_host Sample.unit_map n n' 5 0 1 0
           eq_refl eq_refl ltac:(unfold ndim; simpl; lia) E E'
           ltac:(unfold batch_dim; simpl; lia) ltac:(simpl; lia)
           ltac:(unfold last_dim; simpl; lia)).
Defined.

(** ** Errors of the preparation *)

(** X23.  Whatever [max_N] and the other options are, an error raised while
    the scores or the seed inputs are prepared, or by the extracted model,
    reaches the caller as it is, and the run ends there: nothing later is
    called. *)
Theorem preparation_errors_propagate (h : host) (score : pyarg Score)
    (seed_input : pyarg tensor) (activation_modifier : option (tensor -> result tensor))
    (batch_size : nat) (max_N : option Z) (expand_cam standardize_cam : bool) (e : exn) :
  let outcome := run (Scorecam_call h score seed_input activation_modifier batch_size
                                    max_N expand_cam standardize_cam) in
  (get_scores_for_multiple_outputs h score = Raise e ->
   outcome = ([PrepareScores], Raise e)) /\
  (forall scores,
      get_scores_for_multiple_outputs h score = Ok scores ->
      get_seed_inputs_for_multiple_inputs h seed_input = Raise e ->
      outcome = ([PrepareScores; PrepareSeedInputs], Raise e)) /\
  (forall scores seed_inputs,
      get_scores_for_multiple_outputs h score = Ok scores ->
      get_seed_inputs_for_multiple_inputs h seed_input = Ok seed_inputs ->
      penultimate_model h seed_inputs = Raise e ->
      outcome = ([PrepareScores; PrepareSeedInputs; PenultimateForward], Raise e)).
Proof.
  intros outcome. unfold outcome, run, Scorecam_call, mbind, call. split; [|split].
  - intros ->. reflexivity.
  - intros scores -> ->. reflexivity.
  - intros scores seed_inputs -> ->. simpl. intros ->. reflexivity.
Qed.

Lemma preparation_errors_propagate_witness :
  run (Scorecam_call Sample.failing_host (PyValue Sample.first_class)
         (PyValue Sample.seed) (Some Sample.relu) 32 None true true)
  = ([PrepareScores; PrepareSeedInputs; PenultimateForward], Raise (CollaboratorError 0)).
Proof.
  apply (proj2 (proj2 (preparation_errors_propagate Sample.failing_host
           (PyValue Sample.first_class) (PyValue Sample.seed) (Some Sample.relu)
           32 None true true (CollaboratorError 0)))
           [Sample.first_class] [Sample.seed]); reflexivity.
Defined.

End ScorecamMore.
